(** * modbus_tk.utils: a verification development

    Shallow embedding of [modbus_tk/utils.py] (Modbus TestKit helper module):
    the CRC16 primitive, the inter-character delay helper, the
    [threadsafe_function] decorator, [flush_socket], the [WorkerThread]
    class and the [SerialSocketEmulator] class.

    The module is Python 2 code ([except Exception, excpt], [xrange],
    [print] statement); integers are unbounded, [str] values are byte
    strings and [ord] maps a one-character string to [0..255]. *)

From Stdlib Require Import ZArith List Lia Bool String Ascii.
From Stdlib Require Import Strings.Byte DecimalString.
From Stdlib Require Import Floats.
Import ListNotations.
Local Open Scope Z_scope.
Set Warnings "-inexact-float".

(** ** Checksum engine *)

Module Crc.

(** [ord(i)] for a character [i] of a Python 2 byte string. *)
Definition ord (i : byte) : Z := Z.of_N (Byte.to_N i).

(** [swap_bytes(word_val)], utils.py lines 111-115. *)
Definition swap_bytes (word_val : Z) : Z :=
  let msb := Z.shiftr word_val 8 in
  let lsb := word_val mod 256 in
  Z.shiftl lsb 8 + msb.

(** Body of [for j in xrange(8)], utils.py lines 123-126.  [if tmp:] tests
    the integer [tmp] for being non-zero. *)
Definition crc_shift (crc : Z) : Z :=
  let tmp := Z.land crc 1 in
  let crc := Z.shiftr crc 1 in
  if tmp =? 0 then crc else Z.lxor crc 0xA001.

(** Body of [for i in data], utils.py lines 121-126. *)
Definition crc_byte (crc : Z) (i : byte) : Z :=
  let crc := Z.lxor crc (ord i) in
  Nat.iter 8 crc_shift crc.

(** [calculate_crc(data)], utils.py lines 117-127. *)
Definition calculate_crc (data : list byte) : Z :=
  let crc := 0xFFFF in
  let crc := fold_left crc_byte data crc in
  swap_bytes crc.

(** *** The algorithm as the specification words it

    A 16-bit accumulator, written as a [Z] wrapped to 16 bits after each
    update. *)

Definition wrap16 (z : Z) : Z := z mod 2 ^ 16.

(** "XOR it into the low byte of the accumulator": the high byte is kept,
    the low byte is replaced by its XOR with the data byte. *)
Definition spec_xor_low (acc b : Z) : Z :=
  wrap16 (256 * (acc / 256) + Z.lxor (acc mod 256) b).

(** "if the low bit is set, right-shift the accumulator and XOR with 0xA001;
    otherwise just right-shift". *)
Definition spec_shift (acc : Z) : Z :=
  if Z.testbit acc 0
  then wrap16 (Z.lxor (Z.shiftr acc 1) 0xA001)
  else wrap16 (Z.shiftr acc 1).

Definition spec_byte (acc : Z) (i : byte) : Z :=
  Nat.iter 8 spec_shift (spec_xor_low acc (ord i)).

(** "swap the high and low bytes of the final accumulator (low byte of result
    = high byte of accumulator, and vice versa)". *)
Definition spec_swap (acc : Z) : Z :=
  Z.lor (Z.shiftl (Z.land acc 0xFF) 8) (Z.land (Z.shiftr acc 8) 0xFF).

Definition spec_crc (data : list byte) : Z :=
  spec_swap (fold_left spec_byte data (wrap16 0xFFFF)).

End Crc.


(** ** Python values, exceptions and effects *)

Module Py.

(** Exceptions, by what the handlers of the module can tell apart:
    [except socket.error] catches [SocketError]; [except Exception] catches
    [SocketError] (a subclass of [IOError] since Python 2.6) and [Exc];
    [BaseExc] stands for the classes that do not derive from [Exception]
    ([SystemExit], [KeyboardInterrupt], [GeneratorExit]), which neither
    handler catches.  [cls] is the class name and [msg] is [str(e)]. *)
Inductive exn : Type :=
| SocketError (msg : string)
| Exc (cls : string) (msg : string)
| BaseExc (cls : string) (msg : string).

Definition is_socket_error (e : exn) : bool :=
  match e with SocketError _ => true | _ => false end.

Definition is_Exception (e : exn) : bool :=
  match e with SocketError _ | Exc _ _ => true | BaseExc _ _ => false end.

Definition str (e : exn) : string :=
  match e with SocketError m | Exc _ m | BaseExc _ m => m end.

(** How a call ends: it returns a value, raises, or does not return (it
    blocks for ever, or the fuel given to a loop ran out). *)
Inductive outcome (A : Type) : Type :=
| Ret (a : A)
| Raise (e : exn)
| NoReturn.
Arguments Ret {A} a.
Arguments Raise {A} e.
Arguments NoReturn {A}.

(** Records of the module-level [LOGGER]. *)
Inductive level : Type := WARNING | ERROR.
Definition log_record : Type := level * string.

(** State and exception monad: a computation on a store [S]. *)
Definition M (S A : Type) : Type := S -> outcome A * S.

Definition ret {S A} (a : A) : M S A := fun s => (Ret a, s).

Definition raise {S A} (e : exn) : M S A := fun s => (Raise e, s).

Definition bind {S A B} (m : M S A) (k : A -> M S B) : M S B :=
  fun s =>
    match m s with
    | (Ret a, s') => k a s'
    | (Raise e, s') => (Raise e, s')
    | (NoReturn, s') => (NoReturn, s')
    end.

(** The first [except] clause whose class test accepts the exception. *)
Fixpoint find_clause {S A} (clauses : list ((exn -> bool) * (exn -> M S A)))
  (e : exn) : option (M S A) :=
  match clauses with
  | [] => None
  | (accepts, handler) :: rest =>
      if accepts e then Some (handler e) else find_clause rest e
  end.

(** [try: body  except C1 as e: h1  except C2 as e: h2 ...]: an exception
    raised by a handler is not offered to the other clauses. *)
Definition try_except {S A} (body : M S A)
  (clauses : list ((exn -> bool) * (exn -> M S A))) : M S A :=
  fun s =>
    match body s with
    | (Raise e, s') =>
        match find_clause clauses e with
        | Some handler => handler s'
        | None => (Raise e, s')
        end
    | r => r
    end.

(** [try: body  finally: fin]: [fin] runs when [body] returns or raises; an
    exception raised by [fin] replaces the pending one. *)
Definition try_finally {S A} (body : M S A) (fin : M S unit) : M S A :=
  fun s =>
    match body s with
    | (NoReturn, s') => (NoReturn, s')
    | (r, s') =>
        match fin s' with
        | (Ret _, s'') => (r, s'')
        | (Raise e, s'') => (Raise e, s'')
        | (NoReturn, s'') => (NoReturn, s'')
        end
    end.

End Py.

Declare Scope py_scope.
Delimit Scope py_scope with py.
Notation "x <- m ;; k" := (Py.bind m (fun x => k))
  (at level 61, m at next level, right associativity) : py_scope.
Notation "m ;;; k" := (Py.bind m (fun _ => k))
  (at level 61, right associativity) : py_scope.

(** ** Inter-character delay *)

Module InterChar.
Import Py.

(** Conversion of a Python integer to a [float] (IEEE 754 binary64), rounding
    to nearest even; an integer beyond the range of [float] raises
    [OverflowError]. *)
Definition float_of_int (n : Z) : outcome float :=
  let f := SF2Prim (binary_normalize prec emax n 0 false) in
  if PrimFloat.is_infinity f
  then Raise (Exc "OverflowError" "long int too large to convert to float")
  else Ret f.

(** [a / b] on floats: division by zero raises. *)
Definition float_div (a b : float) : outcome float :=
  if PrimFloat.is_zero b
  then Raise (Exc "ZeroDivisionError" "float division by zero")
  else Ret (a / b)%float.

(** The expression [11.0 / baudrate] for an integer [baudrate]: the integer
    is converted to [float], then divided. *)
Definition eleven_over (baudrate : Z) : outcome float :=
  match float_of_int baudrate with
  | Ret b => float_div 11%float b
  | Raise e => Raise e
  | NoReturn => NoReturn
  end.

(** [calculate_rtu_inter_char(baudrate)], utils.py lines 129-134. *)
Definition calculate_rtu_inter_char (baudrate : Z) : outcome float :=
  if baudrate <=? 19200
  then eleven_over baudrate
  else Ret 0.0005%float.

End InterChar.

(** ** The [threadsafe_function] decorator *)

Module Threadsafe.
Import Py.
Local Open Scope py_scope.

Section Decorator.
Variables (U Args R : Type).

(** The store seen by one call of the decorated function: the
    [threading.Lock] created at decoration time, private to the closure, and
    the rest of the program state, on which the decorated function works. *)
Record store : Type := { locked : bool; user : U }.

(** [lock.acquire()]: blocks while the lock is held. *)
Definition acquire : M store unit :=
  fun s =>
    if locked s then (NoReturn, s)
    else (Ret tt, {| locked := true; user := user s |}).

(** [lock.release()]: releasing a lock that is not held raises. *)
Definition release : M store unit :=
  fun s =>
    if locked s then (Ret tt, {| locked := false; user := user s |})
    else (Raise (Exc "thread.error" "release unlocked lock"), s).

(** A call of the decorated function [fcn]: it cannot reach the lock. *)
Definition call (fcn : Args -> U -> outcome R * U) (args : Args) : M store R :=
  fun s =>
    let (r, u) := fcn args (user s) in
    (r, {| locked := locked s; user := u |}).

(** [threadsafe_function(fcn)], utils.py lines 20-33: the function [new]. *)
Definition threadsafe_function (fcn : Args -> U -> outcome R * U)
  (args : Args) : M store R :=
  acquire ;;;
  r <- try_finally
         (try_except (call fcn args)
            [(is_Exception, fun excpt => raise excpt)])
         release ;;
  ret r.

End Decorator.
Arguments locked {U} _.
Arguments user {U} _.
Arguments threadsafe_function {U Args R} fcn args _.

End Threadsafe.

(** ** The [WorkerThread] class

    The worker's thread and the thread of its owner (the caller of [start]
    and [stop]) are interleaved by a schedule.  The thread's function [_run]
    is cut at the points where it reads the shared [Event] or calls one of
    the three functions it was given; a call of such a function is one step.
    The functions work on the program state [U]; [_go] and [_thread] are
    private attributes of the worker that they do not touch. *)

Module Worker.
Import Py.

Section Class.
Variables (U Args : Type).

Definition callable : Type := Args -> U -> outcome unit * U.

(** [__init__], utils.py lines 141-146: [_fcts = [init_fct, main_fct,
    exit_fct]] and [_args]; [None] for a function that was not given. *)
Record WorkerThread : Type := {
  init_fct : option callable;
  main_fct : callable;
  exit_fct : option callable;
  _args : Args
}.

(** Calls observed on one worker, in the order they happen: the calls of
    [_fcts[0]], [_fcts[1]] and [_fcts[2]] made by the thread, each with how
    it ended, and the returns of [stop()] in the owner ([joined] tells that
    [stop] found the thread alive and joined it). *)
Inductive event : Type :=
| EvInit (r : outcome unit)
| EvMain (r : outcome unit)
| EvExit (r : outcome unit)
| EvStop (joined : bool).

(** Where the thread is in [_run], utils.py lines 159-170. *)
Inductive pc : Type :=
| AtInit                          (* line 162, entering the [try] *)
| AtLoop                          (* line 164, the [while] test *)
| AtExcept (excpt : exn)          (* line 167, in the [except] clause *)
| AtFinally (pending : option exn) (* line 169, entering the [finally] *)
| Hung.                           (* in a call that does not return *)

(** The [threading.Thread] of the worker: not started, running [_run], or
    terminated with the outcome of [_run]. *)
Inductive thread_state : Type :=
| Initial
| Alive (p : pc)
| Finished (r : outcome unit).

(** [Thread.isAlive()]. *)
Definition isAlive (t : thread_state) : bool :=
  match t with Alive _ => true | _ => false end.

(** Method calls made by the owner, and where the owner is in them. *)
Inductive request : Type := Start | Stop.

Inductive owner_pc : Type :=
| Idle                 (* between two calls *)
| Starting             (* [start], line 151 *)
| Clearing             (* [stop], line 156 *)
| Joining              (* [stop], line 157 *)
| Failed (e : exn).    (* a call raised in the owner *)

Record system : Type := {
  go : bool;                    (* [self._go], a [threading.Event] *)
  thread : thread_state;        (* [self._thread] *)
  user : U;
  log : list log_record;
  trace : list event;
  owner : owner_pc;
  todo : list request
}.

Definition initial (u : U) (reqs : list request) : system :=
  {| go := false; thread := Initial; user := u; log := []; trace := [];
     owner := Idle; todo := reqs |}.

Definition set_thread (t : thread_state) (s : system) : system :=
  {| go := go s; thread := t; user := user s; log := log s;
     trace := trace s; owner := owner s; todo := todo s |}.

Definition set_go (b : bool) (s : system) : system :=
  {| go := b; thread := thread s; user := user s; log := log s;
     trace := trace s; owner := owner s; todo := todo s |}.

Definition set_user (u : U) (s : system) : system :=
  {| go := go s; thread := thread s; user := u; log := log s;
     trace := trace s; owner := owner s; todo := todo s |}.

Definition set_owner (o : owner_pc) (s : system) : system :=
  {| go := go s; thread := thread s; user := user s; log := log s;
     trace := trace s; owner := o; todo := todo s |}.

Definition set_todo (reqs : list request) (s : system) : system :=
  {| go := go s; thread := thread s; user := user s; log := log s;
     trace := trace s; owner := owner s; todo := reqs |}.

Definition emit (ev : event) (s : system) : system :=
  {| go := go s; thread := thread s; user := user s; log := log s;
     trace := trace s ++ [ev]; owner := owner s; todo := todo s |}.

(** [LOGGER.error(msg)]. *)
Definition logger_error (msg : string) (s : system) : system :=
  {| go := go s; thread := thread s; user := user s;
     log := log s ++ [(ERROR, msg)];
     trace := trace s; owner := owner s; todo := todo s |}.

(** Where a call made inside the [try] block leads: on, to the [except
    Exception] clause, or past it to the [finally] with the exception
    pending. *)
Definition after_call (r : outcome unit) (next : pc) : pc :=
  match r with
  | Ret _ => next
  | Raise e => if is_Exception e then AtExcept e else AtFinally (Some e)
  | NoReturn => Hung
  end.

(** What [_run] ends with once the [finally] block is through. *)
Definition pending_outcome (pending : option exn) : outcome unit :=
  match pending with
  | None => Ret tt
  | Some e => Raise e
  end.

Variable w : WorkerThread.

(** One step of the worker's thread in [_run]. *)
Definition thread_step (s : system) : system :=
  match thread s with
  | Alive AtInit =>
      match init_fct w with
      | Some f =>
          let (r, u) := f (_args w) (user s) in
          set_thread (Alive (after_call r AtLoop))
            (emit (EvInit r) (set_user u s))
      | None => set_thread (Alive AtLoop) s
      end
  | Alive AtLoop =>
      if go s then
        let (r, u) := main_fct w (_args w) (user s) in
        set_thread (Alive (after_call r AtLoop))
          (emit (EvMain r) (set_user u s))
      else set_thread (Alive (AtFinally None)) s
  | Alive (AtExcept excpt) =>
      set_thread (Alive (AtFinally None))
        (logger_error ("error: " ++ str excpt) s)
  | Alive (AtFinally pending) =>
      match exit_fct w with
      | Some f =>
          let (r, u) := f (_args w) (user s) in
          let t :=
            match r with
            | Ret _ => Finished (pending_outcome pending)
            | Raise e => Finished (Raise e)
            | NoReturn => Alive Hung
            end in
          set_thread t (emit (EvExit r) (set_user u s))
      | None => set_thread (Finished (pending_outcome pending)) s
      end
  | Alive Hung | Initial | Finished _ => s
  end.

(** One step of the owner: [start], utils.py lines 148-151, and [stop],
    lines 153-157.  [Thread.start] refuses a second start, [Thread.join]
    blocks until the thread has terminated. *)
Definition owner_step (s : system) : system :=
  match owner s with
  | Idle =>
      match todo s with
      | [] => s
      | Start :: rest => set_owner Starting (set_go true (set_todo rest s))
      | Stop :: rest =>
          if isAlive (thread s)
          then set_owner Clearing (set_todo rest s)
          else emit (EvStop false) (set_todo rest s)
      end
  | Starting =>
      match thread s with
      | Initial => set_owner Idle (set_thread (Alive AtInit) s)
      | _ => set_owner
               (Failed (Exc "RuntimeError" "threads can only be started once")) s
      end
  | Clearing => set_owner Joining (set_go false s)
  | Joining =>
      match thread s with
      | Finished _ => set_owner Idle (emit (EvStop true) s)
      | Alive _ => s
      | Initial =>
          set_owner
            (Failed (Exc "RuntimeError" "cannot join thread before it is started")) s
      end
  | Failed _ => s
  end.

Inductive turn : Type := Thread | Owner.

Definition step (t : turn) (s : system) : system :=
  match t with
  | Thread => thread_step s
  | Owner => owner_step s
  end.

Fixpoint run (sched : list turn) (s : system) : system :=
  match sched with
  | [] => s
  | t :: rest => run rest (step t s)
  end.

(** The calls made by the worker's thread. *)
Definition by_thread (ev : event) : bool :=
  match ev with EvStop _ => false | _ => true end.

Definition thread_events (tr : list event) : list event := filter by_thread tr.

Definition is_init (ev : event) : bool :=
  match ev with EvInit _ => true | _ => false end.

Definition is_main (ev : event) : bool :=
  match ev with EvMain _ => true | _ => false end.

Definition is_exit (ev : event) : bool :=
  match ev with EvExit _ => true | _ => false end.

End Class.

Arguments init_fct {U Args} _.
Arguments main_fct {U Args} _.
Arguments exit_fct {U Args} _.
Arguments _args {U Args} _.
Arguments go {U} _.
Arguments thread {U} _.
Arguments user {U} _.
Arguments log {U} _.
Arguments trace {U} _.
Arguments owner {U} _.
Arguments todo {U} _.
Arguments initial {U} u reqs.
Arguments set_thread {U} t s.
Arguments set_go {U} b s.
Arguments set_user {U} u s.
Arguments set_owner {U} o s.
Arguments set_todo {U} reqs s.
Arguments emit {U} ev s.
Arguments logger_error {U} msg s.
Arguments thread_step {U Args} w s.
Arguments owner_step {U} s.
Arguments step {U Args} w t s.
Arguments run {U Args} w sched s.
Arguments thread_events tr : simpl never.

End Worker.

(** ** [flush_socket] and the [SerialSocketEmulator] class

    The [socket] and [select] modules are outside the repository: their
    calls are the operations of a socket layer working on a state [OS] of
    its own (the network, the peer, the kernel buffers), about which nothing
    is assumed.  Every call is also recorded, with its result, in [calls]. *)

Module Serial.
Import Py.
Local Open Scope py_scope.

Class SocketLayer (OS sock : Type) : Type := {
  (* socket.socket(socket.AF_INET, socket.SOCK_STREAM) *)
  socket_socket : OS -> outcome sock * OS;
  sock_settimeout : sock -> Z -> OS -> outcome unit * OS;
  (* sock.connect((host, port)) *)
  sock_connect : sock -> string * Z -> OS -> outcome unit * OS;
  sock_close : sock -> OS -> outcome unit * OS;
  sock_recv : sock -> Z -> OS -> outcome (list byte) * OS;
  sock_send : sock -> list byte -> OS -> outcome Z * OS;
  (* select.select(rlist, wlist, xlist, 0.0) *)
  select_select :
    list sock -> list sock -> list sock -> OS ->
    outcome (list sock * list sock * list sock) * OS
}.

Section Adapter.
Context {OS sock : Type} {layer : SocketLayer OS sock}.

Inductive call : Type :=
| Socket (r : outcome sock)
| Settimeout (s : sock) (t : Z) (r : outcome unit)
| Connect (s : sock) (address : string * Z) (r : outcome unit)
| Close (s : sock) (r : outcome unit)
| Recv (s : sock) (bufsize : Z) (r : outcome (list byte))
| Send (s : sock) (data : list byte) (r : outcome Z)
| Select (rlist : list sock) (r : outcome (list sock * list sock * list sock)).

(** The attributes set by [__init__], utils.py lines 178-188. *)
Record SerialSocketEmulator : Type := {
  _sock : option sock;
  _host : string;
  _port : Z;
  name : string;
  baudrate : Z;
  interCharTimeout : Z;
  timeout : Z
}.

(** [str(n)] and ["%d" % n] for an integer. *)
Definition str_int (n : Z) : string :=
  DecimalString.NilZero.string_of_int (Z.to_int n).

Definition __init__ (host : string) (port : Z) : SerialSocketEmulator :=
  {| _sock := None; _host := host; _port := port;
     name := (host ++ "/" ++ str_int port)%string;
     baudrate := 9600; interCharTimeout := 0; timeout := 1 |}.

Record state : Type := {
  self : SerialSocketEmulator;
  os : OS;
  log : list log_record;
  calls : list call
}.

Definition get : M state state := fun st => (Ret st, st).

(** A call into the socket layer. *)
Definition os_call {A} (f : OS -> outcome A * OS) (ev : outcome A -> call)
  : M state A :=
  fun st =>
    let (r, o) := f (os st) in
    (r, {| self := self st; os := o; log := log st;
           calls := calls st ++ [ev r] |}).

Definition logger (lvl : level) (msg : string) : M state unit :=
  fun st =>
    (Ret tt, {| self := self st; os := os st; log := log st ++ [(lvl, msg)];
                calls := calls st |}).

(** [self._sock = v]. *)
Definition set_sock (v : option sock) : M state unit :=
  fun st =>
    (Ret tt,
     {| self := {| _sock := v; _host := _host (self st);
                   _port := _port (self st); name := name (self st);
                   baudrate := baudrate (self st);
                   interCharTimeout := interCharTimeout (self st);
                   timeout := timeout (self st) |};
        os := os st; log := log st; calls := calls st |}).

(** [obj.attr(...)] where [obj] may be [None]. *)
Definition method {A} (obj : option sock) (attr : string)
  (m : sock -> M state A) : M state A :=
  match obj with
  | Some s => m s
  | None =>
      raise (Exc "AttributeError"
               ("'NoneType' object has no attribute '" ++ attr ++ "'"))
  end.

Definition recv (s : sock) (bufsize : Z) : M state (list byte) :=
  os_call (sock_recv s bufsize) (Recv s bufsize).

Definition send (s : sock) (data : list byte) : M state Z :=
  os_call (sock_send s data) (Send s data).

(** The sockets of a list of objects, if none of them is [None]. *)
Fixpoint socks_of (objs : list (option sock)) : option (list sock) :=
  match objs with
  | [] => Some []
  | Some s :: rest => option_map (cons s) (socks_of rest)
  | None :: _ => None
  end.

(** [select.select(objs, objs, objs, 0.0)]: an object that is not a socket
    is refused. *)
Definition select (objs : list (option sock))
  : M state (list sock * list sock * list sock) :=
  match socks_of objs with
  | Some l => os_call (select_select l l l) (Select l)
  | None =>
      raise (Exc "TypeError"
               "argument must be an int, or have a fileno() method.")
  end.

(** [for x in l: body(x)]. *)
Fixpoint for_each {A B} (l : list A) (body : A -> M state B) : M state unit :=
  match l with
  | [] => ret tt
  | x :: rest => body x ;;; for_each rest body
  end.

Definition limit_reached : exn :=
  Exc "Exception" "flush_socket: maximum number of iterations reached".

(** The [while 1] loop of [flush_socket], utils.py lines 39-49; [fuel] bounds
    the number of iterations. *)
Fixpoint flush_loop (fuel : nat) (input_socks : list (option sock))
  (lim cnt : Z) : M state unit :=
  match fuel with
  | O => fun st => (NoReturn, st)
  | S fuel' =>
      ready <- select input_socks ;;
      let '(i_socks, o_socks, e_socks) := ready in
      if Z.of_nat (List.length i_socks) =? 0 then ret tt
      else
        for_each i_socks (fun sock => recv sock 1024) ;;;
        if lim >? 0 then
          let cnt := cnt + 1 in
          if cnt >=? lim then raise limit_reached
          else flush_loop fuel' input_socks lim cnt
        else flush_loop fuel' input_socks lim cnt
  end.

(** [flush_socket(socks, lim)], utils.py lines 35-49. *)
Definition flush_socket (fuel : nat) (socks : option sock) (lim : Z)
  : M state unit :=
  let input_socks := [socks] in
  let cnt := 0 in
  flush_loop fuel input_socks lim cnt.

(** [open], utils.py lines 190-199. *)
Definition open : M state unit :=
  st <- get ;;
  match _sock (self st) with
  | Some s => os_call (sock_close s) (Close s)
  | None => ret tt
  end ;;;
  s <- os_call socket_socket Socket ;;
  set_sock (Some s) ;;;
  st <- get ;;
  os_call (sock_settimeout s (timeout (self st)))
    (Settimeout s (timeout (self st))) ;;;
  st <- get ;;
  let address := (_host (self st), _port (self st)) in
  try_except (os_call (sock_connect s address) (Connect s address))
    [(is_socket_error,
      fun e =>
        logger WARNING
          ("Couldn't open socket " ++ _host (self st) ++ ":"
             ++ str_int (_port (self st)) ++ ": " ++ str e))].

(** [close], utils.py lines 201-205. *)
Definition close : M state unit :=
  st <- get ;;
  match _sock (self st) with
  | Some s => os_call (sock_close s) (Close s) ;;; set_sock None
  | None => ret tt
  end.

(** [read], utils.py lines 207-215.  The [try] block returns the bytes
    received ([Some]); after a handled exception control falls through to
    [return ''] ([None]). *)
Definition read (bufsize : Z) : M state (list byte) :=
  returned <-
    try_except
      (st <- get ;;
       data <- method (_sock (self st)) "recv" (fun s => recv s bufsize) ;;
       ret (Some data))
      [(is_socket_error,
        fun e => logger WARNING ("Couldn't read from socket: " ++ str e) ;;;
                 ret None);
       (is_Exception,
        fun e => logger ERROR ("Couldn't read from socket: " ++ str e) ;;;
                 ret None)] ;;
  match returned with
  | Some data => ret data
  | None => ret []
  end.

(** [string[start:]]: a negative [start] counts from the end. *)
Definition slice_from (string : list byte) (start : Z) : list byte :=
  let len := Z.of_nat (List.length string) in
  if start <? 0
  then skipn (Z.to_nat (Z.max 0 (len + start))) string
  else skipn (Z.to_nat start) string.

(** The [while] loop of [write], utils.py lines 221-222. *)
Fixpoint write_loop (fuel : nat) (string : list byte) (bytesReallySent : Z)
  : M state unit :=
  match fuel with
  | O => fun st => (NoReturn, st)
  | S fuel' =>
      if bytesReallySent <? Z.of_nat (List.length string) then
        st <- get ;;
        n <- method (_sock (self st)) "send"
               (fun s => send s (slice_from string bytesReallySent)) ;;
        write_loop fuel' string (bytesReallySent + n)
      else ret tt
  end.

(** [write], utils.py lines 217-226: it returns [None] on every path. *)
Definition write (fuel : nat) (string : list byte) : M state unit :=
  try_except
    (let bytesReallySent := 0 in
     write_loop fuel string bytesReallySent)
    [(is_socket_error,
      fun e => logger WARNING ("Couldn't write to socket: " ++ str e));
     (is_Exception,
      fun e => logger ERROR ("Couldn't write to socket: " ++ str e))].

(** [isOpen], utils.py lines 228-230. *)
Definition isOpen : M state bool := ret false.

(** [flushInput], utils.py lines 232-241. *)
Definition flushInput (fuel : nat) : M state unit :=
  try_except
    (st <- get ;;
     flush_socket fuel (_sock (self st)) 3)
    [(is_Exception,
      fun msg =>
        logger ERROR ("Error while flushing the socket: " ++ str msg) ;;;
        open)].

(** [flushOutput], utils.py lines 243-245. *)
Definition flushOutput : M state unit := ret tt.

End Adapter.

Arguments call : clear implicits.
Arguments SerialSocketEmulator : clear implicits.
Arguments state : clear implicits.

End Serial.

(** ** [get_log_buffer] *)

Module LogBuffer.

(** [str(ord(i))]. *)
Definition str_ord (i : byte) : string := Serial.str_int (Crc.ord i).

(** [s[:-1]]: the string without its last character; [''] for ['']. *)
Fixpoint all_but_last (s : string) : string :=
  match s with
  | EmptyString => EmptyString
  | String c rest =>
      match rest with
      | EmptyString => EmptyString
      | String _ _ => String c (all_but_last rest)
      end
  end.

(** [get_log_buffer(prefix, buff)], utils.py lines 51-56. *)
Definition get_log_buffer (prefix : string) (buff : list byte) : string :=
  let log := prefix in
  let log := fold_left (fun log i => (log ++ (str_ord i ++ "-"))%string) buff log in
  all_but_last log.

End LogBuffer.

(** ** [threadsafe_function] under concurrent callers

    Several threads call the same wrapper [new]; a schedule tells which of
    them takes the next step.  The decorated function is run step by step,
    so that its steps could interleave, were it not for the lock. *)

Module Guarded.
Import Py.

Section Callers.
Variables (U L R : Type).

(** How a call of the decorated function ends. *)
Inductive ended : Type :=
| Returned (ret : R)
| Raised (excpt : exn).

(** The decorated function: from its local state and the shared state, one
    step goes on with a new local state or ends the call.  A call starts
    with its arguments as local state. *)
Variable fcn : L -> U -> (L + ended) * U.

(** Where a caller is in [new], utils.py lines 23-32; [args] is kept along
    for reference. *)
Inductive caller : Type :=
| AtAcquire (args : L)               (* line 25, [lock.acquire()] *)
| InFcn (args : L) (local : L)       (* line 27, in the call of [fcn] *)
| AtRelease (args : L) (r : ended)   (* line 31, [lock.release()] *)
| Done (args : L) (r : ended).       (* line 32, or the exception has left *)

(** The lock of the closure, the shared state, the callers, and the calls
    that have released the lock, in that order. *)
Record system : Type := {
  locked : bool;
  user : U;
  callers : list caller;
  history : list (L * ended)
}.

Definition initial (u : U) (argss : list L) : system :=
  {| locked := false; user := u; callers := map AtAcquire argss;
     history := [] |}.

Fixpoint set_nth {A} (i : nat) (x : A) (l : list A) : list A :=
  match l with
  | [] => []
  | h :: t =>
      match i with
      | O => x :: t
      | S j => h :: set_nth j x t
      end
  end.

(** One step of caller [i]; a caller waiting for the lock does not move. *)
Definition step (i : nat) (s : system) : system :=
  match nth_error (callers s) i with
  | Some (AtAcquire args) =>
      if locked s then s
      else {| locked := true; user := user s;
              callers := set_nth i (InFcn args args) (callers s);
              history := history s |}
  | Some (InFcn args local) =>
      let (next, u) := fcn local (user s) in
      match next with
      | inl local' =>
          {| locked := locked s; user := u;
             callers := set_nth i (InFcn args local') (callers s);
             history := history s |}
      | inr r =>
          {| locked := locked s; user := u;
             callers := set_nth i (AtRelease args r) (callers s);
             history := history s |}
      end
  | Some (AtRelease args r) =>
      {| locked := false; user := user s;
         callers := set_nth i (Done args r) (callers s);
         history := history s ++ [(args, r)] |}
  | Some (Done _ _) | None => s
  end.

Fixpoint run (sched : list nat) (s : system) : system :=
  match sched with
  | [] => s
  | i :: rest => run rest (step i s)
  end.

(** A caller between [acquire] and [release]. *)
Definition holds (c : caller) : bool :=
  match c with
  | InFcn _ _ | AtRelease _ _ => true
  | AtAcquire _ | Done _ _ => false
  end.

(** A whole call run on its own: from local state [l] and shared state [u]
    it ends with [r] and leaves [u']. *)
Inductive runs : L -> U -> ended -> U -> Prop :=
| runs_end l u r u' : fcn l u = (inr r, u') -> runs l u r u'
| runs_step l u l' u1 r u' :
    fcn l u = (inl l', u1) -> runs l' u1 r u' -> runs l u r u'.

(** Calls run one after another. *)
Inductive serial : U -> list (L * ended) -> U -> Prop :=
| serial_nil u : serial u [] u
| serial_snoc u h u1 args r u2 :
    serial u h u1 -> runs args u1 r u2 -> serial u (h ++ [(args, r)]) u2.

End Callers.

Arguments Returned {R} ret.
Arguments Raised {R} excpt.
Arguments AtAcquire {L R} args.
Arguments InFcn {L R} args local.
Arguments AtRelease {L R} args r.
Arguments Done {L R} args r.
Arguments locked {U L R} _.
Arguments user {U L R} _.
Arguments callers {U L R} _.
Arguments history {U L R} _.
Arguments initial {U L R} u argss.
Arguments step {U L R} fcn i s.
Arguments run {U L R} fcn sched s.
Arguments holds {L R} c.
Arguments runs {U L R} fcn _ _ _ _.
Arguments serial {U L R} fcn _ _ _.

(** A shared counter incremented in two steps: read it, then write back the
    value read plus one. *)
Definition increment (local : option nat) (counter : nat)
  : (option nat + ended unit) * nat :=
  match local with
  | None => (inl (Some counter), counter)
  | Some seen => (inr (Returned tt), S seen)
  end.

End Guarded.

(** ** [create_logger] and the handler classes

    The [logging] module is outside the repository: a logger is its level
    and the handlers added to it, each with the format of its formatter.
    [socket_dgram] stands for [socket.socket(AF_INET, SOCK_DGRAM)], on a
    state [OS] of the socket layer about which nothing is assumed. *)

Module Logger.
Import Py.
Local Open Scope py_scope.

Section Factory.
Variables (OS sock : Type).
Variable socket_dgram : OS -> outcome sock * OS.

(** The handler classes, utils.py lines 58-91. *)
Inductive handler : Type :=
| LogitHandler (dest : string * Z) (_sock : sock)
| ConsoleHandler
| DummyHandler.

Record logger : Type := {
  level : Z;
  handlers : list (handler * string)
}.

(** The logger named ["modbus_tk"] and the state of the socket layer. *)
Record state : Type := {
  modbus_tk : logger;
  os : OS
}.

(** [logger.setLevel(level)]. *)
Definition setLevel (lvl : Z) : M state unit :=
  fun st =>
    (Ret tt,
     {| modbus_tk := {| level := lvl; handlers := handlers (modbus_tk st) |};
        os := os st |}).

(** [log_handler.setFormatter(formatter)] and [logger.addHandler(log_handler)]
    for a handler just built. *)
Definition addHandler (h : handler) (formatter : string) : M state unit :=
  fun st =>
    (Ret tt,
     {| modbus_tk := {| level := level (modbus_tk st);
                        handlers := handlers (modbus_tk st) ++ [(h, formatter)] |};
        os := os st |}).

(** [LogitHandler(dest)], utils.py lines 72-76. *)
Definition new_LogitHandler (dest : string * Z) : M state handler :=
  fun st =>
    match socket_dgram (os st) with
    | (Ret s, o) => (Ret (LogitHandler dest s), {| modbus_tk := modbus_tk st; os := o |})
    | (Raise e, o) => (Raise e, {| modbus_tk := modbus_tk st; os := o |})
    | (NoReturn, o) => (NoReturn, {| modbus_tk := modbus_tk st; os := o |})
    end.

(** [create_logger(name, level, record_format)], utils.py lines 93-109; it
    returns the logger. *)
Definition create_logger (name : string) (lvl : Z) (record_format : string)
  : M state logger :=
  setLevel lvl ;;;
  let formatter := record_format in
  log_handler <-
    (if String.eqb name "udp" then new_LogitHandler ("127.0.0.1"%string, 1975)
     else if String.eqb name "console" then ret ConsoleHandler
     else if String.eqb name "dummy" then ret DummyHandler
     else raise (Exc "Exception" ("Unknown handler " ++ name))) ;;
  addHandler log_handler formatter ;;;
  (fun st => (Ret (modbus_tk st), st)).

End Factory.

Arguments LogitHandler {sock} dest _sock.
Arguments ConsoleHandler {sock}.
Arguments DummyHandler {sock}.
Arguments level {sock} _.
Arguments handlers {sock} _.
Arguments modbus_tk {OS sock} _.
Arguments os {OS sock} _.
Arguments create_logger {OS sock} socket_dgram name lvl record_format _.

End Logger.
Example crc_read_holding :
  Crc.calculate_crc [x01; x03; x00; x00; x00; x0a]%byte = 0xC5CD.
Proof. reflexivity. Qed.

(** ** Checksum engine: refinement of the worded algorithm *)

Module CrcFacts.
Import Crc.

Definition word16 (z : Z) : Prop := 0 <= z < 2 ^ 16.

Lemma word16_shiftr_zero z : 0 <= z -> (z < 2 ^ 16 <-> Z.shiftr z 16 = 0).
Proof.
  intros Hz. rewrite Z.shiftr_div_pow2 by lia. split; intros H.
  - apply Z.div_small; lia.
  - apply Z.div_small_iff in H; lia.
Qed.

Lemma word16_lxor a b : word16 a -> word16 b -> word16 (Z.lxor a b).
Proof.
  unfold word16. intros [Ha0 Ha] [Hb0 Hb].
  assert (H0 : 0 <= Z.lxor a b) by (apply Z.lxor_nonneg; tauto).
  split; [exact H0|].
  apply word16_shiftr_zero; [exact H0|].
  rewrite Z.shiftr_lxor.
  apply word16_shiftr_zero in Ha; [|exact Ha0].
  apply word16_shiftr_zero in Hb; [|exact Hb0].
  rewrite Ha, Hb. reflexivity.
Qed.

Lemma word16_shiftr1 a : word16 a -> word16 (Z.shiftr a 1).
Proof.
  unfold word16. intros [Ha0 Ha]. rewrite Z.shiftr_div_pow2 by lia.
  change (2 ^ 1) with 2. split.
  - apply Z.div_pos; lia.
  - apply Z.div_lt_upper_bound; lia.
Qed.

Lemma ord_range i : 0 <= ord i < 256.
Proof.
  unfold ord. pose proof (Byte.to_N_bounded i) as H. lia.
Qed.

Lemma wrap16_id z : word16 z -> wrap16 z = z.
Proof. unfold word16, wrap16. intros H. apply Z.mod_small. exact H. Qed.

Lemma land_1_testbit z : (Z.land z 1 =? 0) = negb (Z.testbit z 0).
Proof.
  change 1 with (Z.ones 1). rewrite Z.land_ones by lia.
  rewrite Z.bit0_eqb. change (2 ^ 1) with 2.
  pose proof (Z.mod_pos_bound z 2 ltac:(lia)) as H.
  destruct (z mod 2 =? 0) eqn:E0, (z mod 2 =? 1) eqn:E1; try reflexivity;
    rewrite ?Z.eqb_eq, ?Z.eqb_neq in *; lia.
Qed.

Lemma crc_shift_word16 crc : word16 crc -> word16 (crc_shift crc).
Proof.
  intros H. unfold crc_shift. cbv zeta.
  destruct (Z.land crc 1 =? 0).
  - apply word16_shiftr1; exact H.
  - apply word16_lxor; [apply word16_shiftr1; exact H|].
    unfold word16; lia.
Qed.

Lemma crc_shift_spec crc : word16 crc -> crc_shift crc = spec_shift crc.
Proof.
  intros H. pose proof (crc_shift_word16 crc H) as Hw. revert Hw.
  unfold crc_shift, spec_shift. cbv zeta. rewrite land_1_testbit.
  destruct (Z.testbit crc 0); cbn [negb]; intros Hw;
    symmetry; apply wrap16_id; exact Hw.
Qed.

Lemma iter_shift_spec n crc :
  word16 crc ->
  Nat.iter n crc_shift crc = Nat.iter n spec_shift crc
  /\ word16 (Nat.iter n crc_shift crc).
Proof.
  intros H. induction n as [|n [IHe IHw]].
  - split; [reflexivity|exact H].
  - rewrite !Nat.iter_succ. split.
    + rewrite <- IHe. apply crc_shift_spec; exact IHw.
    + apply crc_shift_word16; exact IHw.
Qed.

Lemma byte_above_8 b n : 0 <= b < 256 -> 8 <= n -> Z.testbit b n = false.
Proof.
  intros Hb Hn. apply Z.bits_above_log2; [lia|].
  destruct (Z.eq_dec b 0) as [->|Hnz]; [cbn; lia|].
  apply Z.log2_lt_pow2; [lia|].
  apply Z.lt_le_trans with (2 ^ 8); [change (2 ^ 8) with 256; lia|].
  apply Z.pow_le_mono_r; lia.
Qed.

(** XOR with a byte only touches the low byte. *)
Lemma lxor_low_byte acc b :
  0 <= b < 256 -> Z.lxor acc b = 256 * (acc / 256) + Z.lxor (acc mod 256) b.
Proof.
  intros Hb.
  assert (Hhi : Z.lxor acc b / 256 = acc / 256).
  { change 256 with (2 ^ 8). rewrite <- !Z.shiftr_div_pow2 by lia.
    rewrite Z.shiftr_lxor. rewrite (Z.shiftr_div_pow2 b) by lia.
    rewrite (Z.div_small b) by (change (2 ^ 8) with 256; lia).
    apply Z.lxor_0_r. }
  assert (Hlo : Z.lxor acc b mod 256 = Z.lxor (acc mod 256) b).
  { change 256 with (2 ^ 8). rewrite <- !Z.land_ones by lia.
    apply Z.bits_inj'. intros n Hn.
    rewrite !Z.land_spec, !Z.lxor_spec, !Z.land_spec.
    destruct (Z.ltb_spec n 8) as [Hlt|Hge].
    - rewrite Z.ones_spec_low by lia. rewrite !andb_true_r. reflexivity.
    - rewrite Z.ones_spec_high by lia. rewrite !andb_false_r.
      cbn [xorb]. symmetry. apply byte_above_8; assumption. }
  rewrite <- Hhi, <- Hlo. apply Z.div_mod. lia.
Qed.

Lemma crc_byte_spec crc i :
  word16 crc -> crc_byte crc i = spec_byte crc i /\ word16 (crc_byte crc i).
Proof.
  intros H. unfold crc_byte, spec_byte, spec_xor_low. cbv zeta.
  pose proof (ord_range i) as Hi.
  assert (Hx : word16 (Z.lxor crc (ord i))).
  { apply word16_lxor; [exact H|]. unfold word16. lia. }
  rewrite <- (lxor_low_byte crc (ord i) Hi).
  rewrite (wrap16_id _ Hx).
  apply iter_shift_spec. exact Hx.
Qed.

Lemma fold_crc_spec data crc :
  word16 crc ->
  fold_left crc_byte data crc = fold_left spec_byte data crc
  /\ word16 (fold_left crc_byte data crc).
Proof.
  revert crc. induction data as [|i data IH]; intros crc H; cbn [fold_left].
  - split; [reflexivity|exact H].
  - destruct (crc_byte_spec crc i H) as [He Hw].
    rewrite <- He. apply IH. exact Hw.
Qed.

Lemma bytes_disjoint lo hi :
  0 <= hi < 256 -> Z.land (Z.shiftl lo 8) hi = 0.
Proof.
  intros Hhi. apply Z.bits_inj'. intros n Hn.
  rewrite Z.land_spec, Z.bits_0.
  destruct (Z.ltb_spec n 8) as [Hlt|Hge].
  - rewrite Z.shiftl_spec_low by lia. reflexivity.
  - rewrite (byte_above_8 hi n Hhi Hge). apply andb_false_r.
Qed.

Lemma swap_bytes_spec w : word16 w -> swap_bytes w = spec_swap w.
Proof.
  unfold word16. intros [H0 H1]. unfold swap_bytes, spec_swap. cbv zeta.
  change 0xFF with (Z.ones 8). rewrite !Z.land_ones by lia.
  change (2 ^ 8) with 256.
  assert (Hhi : 0 <= Z.shiftr w 8 < 256).
  { rewrite Z.shiftr_div_pow2 by lia. change (2 ^ 8) with 256.
    split; [apply Z.div_pos; lia|apply Z.div_lt_upper_bound; lia]. }
  rewrite (Z.mod_small (Z.shiftr w 8) 256) by exact Hhi.
  rewrite Z.add_nocarry_lxor by (apply bytes_disjoint; exact Hhi).
  apply Z.lxor_lor. apply bytes_disjoint; exact Hhi.
Qed.

Lemma swap_bytes_word16 w : word16 w -> word16 (swap_bytes w).
Proof.
  unfold word16. intros [H0 H1]. unfold swap_bytes. cbv zeta.
  rewrite Z.shiftl_mul_pow2, Z.shiftr_div_pow2 by lia.
  change (2 ^ 8) with 256. change (2 ^ 16) with 65536 in *.
  pose proof (Z.mod_pos_bound w 256 ltac:(lia)).
  assert (0 <= w / 256 < 256).
  { split; [apply Z.div_pos; lia|apply Z.div_lt_upper_bound; lia]. }
  lia.
Qed.

(** C1. For every finite byte sequence [data], [calculate_crc data] is the
    value of the worded algorithm: start a 16-bit accumulator at 0xFFFF, for
    each byte XOR it into the low byte and shift eight times (XOR-ing with
    0xA001 when the bit shifted out is set), and finally swap the two bytes
    of the accumulator.  The function is total, its value is a 16-bit word,
    and for the empty sequence it is the byte-swapped form of 0xFFFF. *)
Theorem calculate_crc_refines_spec :
  (forall data : list byte,
      calculate_crc data = spec_crc data /\ word16 (calculate_crc data))
  /\ calculate_crc [] = spec_swap 0xFFFF
  /\ calculate_crc [] = 0xFFFF.
Proof.
  split; [|split; reflexivity].
  intros data. unfold calculate_crc, spec_crc. cbv zeta.
  assert (H : word16 0xFFFF) by (unfold word16; lia).
  rewrite (wrap16_id _ H).
  destruct (fold_crc_spec data 0xFFFF H) as [He Hw].
  rewrite <- He. split.
  - apply swap_bytes_spec. exact Hw.
  - apply swap_bytes_word16. exact Hw.
Qed.

End CrcFacts.

(** ** Inter-character delay *)

Module InterCharFacts.
Import Py InterChar.

Example inter_char_9600 :
  calculate_rtu_inter_char 9600 = Ret (11 / 9600)%float.
Proof. reflexivity. Qed.

Example inter_char_zero :
  calculate_rtu_inter_char 0
  = Raise (Exc "ZeroDivisionError" "float division by zero").
Proof. reflexivity. Qed.

(** The quotient is a positive float for a rate in [1..19200]. *)
Definition positive_result (rate : Z) : bool :=
  match calculate_rtu_inter_char rate with
  | Ret f => (0 <? f)%float
  | _ => false
  end.

(** [positive_result] on the [n] rates from [rate] up. *)
Fixpoint positive_from (n : nat) (rate : Z) : bool :=
  match n with
  | O => true
  | S n' => positive_result rate && positive_from n' (rate + 1)
  end.

Lemma positive_from_spec n :
  forall lo rate,
    positive_from n lo = true -> lo <= rate < lo + Z.of_nat n ->
    positive_result rate = true.
Proof.
  induction n as [|n IH]; intros lo rate H Hr.
  - lia.
  - cbn [positive_from] in H. apply andb_true_iff in H. destruct H as [H1 H2].
    destruct (Z.eq_dec rate lo) as [->|Hne]; [exact H1|].
    apply (IH (lo + 1)); [exact H2|lia].
Qed.

Lemma positive_results : positive_from (Z.to_nat 19200) 1 = true.
Proof. vm_compute. reflexivity. Qed.

Lemma inter_char_positive rate :
  0 < rate <= 19200 ->
  exists f, calculate_rtu_inter_char rate = Ret f /\ (0 <? f)%float = true.
Proof.
  intros H.
  assert (Hp : positive_result rate = true).
  { apply (positive_from_spec (Z.to_nat 19200) 1 rate positive_results). lia. }
  unfold positive_result in Hp.
  destruct (calculate_rtu_inter_char rate) as [f| |]; try discriminate.
  exists f. split; [reflexivity|exact Hp].
Qed.

(** The [n] rates from [lo] up. *)
Fixpoint rates (n : nat) (lo : Z) : list Z :=
  match n with
  | O => []
  | S n' => lo :: rates n' (lo + 1)
  end.

Lemma rates_In n :
  forall lo rate, lo <= rate < lo + Z.of_nat n -> In rate (rates n lo).
Proof.
  induction n as [|n IH]; intros lo rate Hr.
  - lia.
  - cbn [rates]. destruct (Z.eq_dec rate lo) as [->|Hne].
    + left. reflexivity.
    + right. apply IH. lia.
Qed.

Lemma map_eq_In {A B : Type} (f g : A -> B) (l : list A) :
  map f l = map g l -> forall x, In x l -> f x = g x.
Proof.
  induction l as [|a l IH]; intros H x Hx.
  - destruct Hx.
  - cbn [map] in H. injection H as Ha Hl.
    destruct Hx as [->|Hx]; [exact Ha|exact (IH Hl x Hx)].
Qed.

(** On every rate in [1..19200] the function returns the quotient of the
    float 11.0 by the rate converted by the machine. *)
Lemma machine_quotients :
  map calculate_rtu_inter_char (rates (Z.to_nat 19200) 1)
  = map (fun rate => Ret (11 / PrimFloat.of_uint63 (Uint63.of_Z rate))%float)
        (rates (Z.to_nat 19200) 1).
Proof. vm_compute. reflexivity. Qed.

Lemma inter_char_quotient rate :
  0 < rate <= 19200 ->
  calculate_rtu_inter_char rate
  = Ret (11 / PrimFloat.of_uint63 (Uint63.of_Z rate))%float.
Proof.
  intros H.
  apply (map_eq_In calculate_rtu_inter_char
           (fun rate => Ret (11 / PrimFloat.of_uint63 (Uint63.of_Z rate))%float)
           _ machine_quotients).
  apply rates_In. lia.
Qed.

(** C7. For every transmission rate, [calculate_rtu_inter_char rate] is
    [11.0 / rate] when [rate <= 19200]: the float 11.0 divided by the rate
    converted to a float, a positive float for a rate in [1..19200], the
    [ZeroDivisionError] of the division at rate 0; it is the fixed value
    0.0005 when [rate > 19200]; at the boundary, 19200 takes the formula
    branch and 19201 the fixed one. *)
Theorem calculate_rtu_inter_char_branches (rate : Z) :
  (rate <= 19200 ->
   calculate_rtu_inter_char rate
   = let b := SF2Prim (binary_normalize prec emax rate 0 false) in
     if PrimFloat.is_infinity b
     then Raise (Exc "OverflowError" "long int too large to convert to float")
     else if PrimFloat.is_zero b
          then Raise (Exc "ZeroDivisionError" "float division by zero")
          else Ret (11 / b)%float)
  /\ (0 < rate <= 19200 ->
      calculate_rtu_inter_char rate
      = Ret (11 / PrimFloat.of_uint63 (Uint63.of_Z rate))%float
      /\ (0 <? 11 / PrimFloat.of_uint63 (Uint63.of_Z rate))%float = true)
  /\ (rate = 0 ->
      calculate_rtu_inter_char rate
      = Raise (Exc "ZeroDivisionError" "float division by zero"))
  /\ (rate > 19200 -> calculate_rtu_inter_char rate = Ret 0.0005%float)
  /\ calculate_rtu_inter_char 19200 = Ret (11 / 19200)%float
  /\ calculate_rtu_inter_char 19201 = Ret 0.0005%float.
Proof.
  split; [|split; [|split; [|split; [|split]]]].
  - intros H. unfold calculate_rtu_inter_char.
    destruct (Z.leb_spec rate 19200) as [_|Hgt]; [|lia].
    unfold eleven_over, float_of_int, float_div. cbv zeta.
    destruct (PrimFloat.is_infinity
                (SF2Prim (binary_normalize prec emax rate 0 false)));
      reflexivity.
  - intros H. split; [exact (inter_char_quotient rate H)|].
    destruct (inter_char_positive rate H) as [f [Hf Hpos]].
    rewrite (inter_char_quotient rate H) in Hf.
    injection Hf as Hf. rewrite Hf. exact Hpos.
  - intros ->. reflexivity.
  - intros H. unfold calculate_rtu_inter_char.
    destruct (Z.leb_spec rate 19200); [lia|reflexivity].
  - reflexivity.
  - reflexivity.
Qed.

Lemma calculate_rtu_inter_char_branches_witness :
  (calculate_rtu_inter_char 9600 = Ret (11 / 9600)%float
   /\ (0 <? 11 / 9600)%float = true)
  /\ calculate_rtu_inter_char 0
     = Raise (Exc "ZeroDivisionError" "float division by zero")
  /\ calculate_rtu_inter_char 38400 = Ret 0.0005%float.
Proof.
  split; [|split].
  - apply (proj1 (proj2 (calculate_rtu_inter_char_branches 9600))). lia.
  - apply (proj1 (proj2 (proj2 (calculate_rtu_inter_char_branches 0)))).
    reflexivity.
  - apply (proj1 (proj2 (proj2 (proj2 (calculate_rtu_inter_char_branches 38400))))).
    lia.
Defined.

End InterCharFacts.

(** ** The [threadsafe_function] decorator *)

Module ThreadsafeFacts.
Import Py Threadsafe.

Section Guarded.
Context {U Args R : Type}.
Variable fcn : Args -> U -> outcome R * U.

Definition unlocked (u : U) : store U := {| locked := false; user := u |}.

(** One call through the wrapper, the lock being free when it starts. *)
Lemma threadsafe_function_unlocked args u :
  threadsafe_function fcn args (unlocked u)
  = match fcn args u with
    | (NoReturn, u') => (NoReturn, {| locked := true; user := u' |})
    | (r, u') => (r, unlocked u')
    end.
Proof.
  unfold threadsafe_function, bind, try_finally, try_except, call, acquire,
    release, raise, ret, unlocked. cbn.
  destruct (fcn args u) as [[v|e|] u']; cbn; try reflexivity.
  destruct (is_Exception e); reflexivity.
Qed.

End Guarded.


(** A counter whose update raises on odd values. *)
Definition bump (step : Z) (n : Z) : outcome Z * Z :=
  if Z.odd step
  then (Raise (Exc "ValueError" "odd step"), n)
  else (Ret (n + step), n + step).


End ThreadsafeFacts.

(** ** The [WorkerThread] class *)

Module WorkerFacts.
Import Py Worker.

Section Runs.
Context {U Args : Type}.
Variable w : WorkerThread U Args.

(** [ev] when the optional function was given, nothing otherwise. *)
Definition opt_event (f : option (callable U Args)) (ev : event) : list event :=
  match f with
  | Some _ => [ev]
  | None => []
  end.

Definition init_ok : list event := opt_event (init_fct w) (EvInit (Ret tt)).

Definition mains_ok (n : nat) : list event := repeat (EvMain (Ret tt)) n.

(** How the [try] block of [_run] was left. *)
Inductive ending : Type :=
| LoopExit
| InitRaised (e : exn)
| MainRaised (e : exn).

Definition body_events (n : nat) (b : ending) : list event :=
  match b with
  | LoopExit => init_ok ++ mains_ok n
  | InitRaised e => [EvInit (Raise e)]
  | MainRaised e => init_ok ++ mains_ok n ++ [EvMain (Raise e)]
  end.

Definition raised (b : ending) : option exn :=
  match b with
  | LoopExit => None
  | InitRaised e | MainRaised e => Some e
  end.

Definition body_log (b : ending) : list log_record :=
  match raised b with
  | Some e => if is_Exception e then [(ERROR, "error: " ++ str e)%string] else []
  | None => []
  end.

Definition body_pending (b : ending) : option exn :=
  match raised b with
  | Some e => if is_Exception e then None else Some e
  | None => None
  end.

Definition ending_ok (b : ending) : Prop :=
  match b with
  | InitRaised _ => init_fct w <> None
  | _ => True
  end.

Definition exit_outcome (pending : option exn) (rx : outcome unit) : outcome unit :=
  match rx with
  | Ret _ => pending_outcome pending
  | Raise e => Raise e
  | NoReturn => NoReturn
  end.

Definition not_init (ev : event) : bool := negb (is_init ev).
Definition not_exit (ev : event) : bool := negb (is_exit ev).

(** Init, when it was given, is the first call and is called once; when it
    was not given it is never called. *)
Definition calls_in_order (evs : list event) : bool :=
  match init_fct w with
  | Some _ =>
      match evs with
      | [] => true
      | ev :: rest => is_init ev && forallb not_init rest
      end
  | None => forallb not_init evs
  end.

(** What the calls made so far and the log look like at each point of [_run]. *)
Definition inv (s : system U) : Prop :=
  match thread s with
  | Initial | Alive AtInit => thread_events (trace s) = [] /\ log s = []
  | Alive AtLoop =>
      exists n, thread_events (trace s) = init_ok ++ mains_ok n /\ log s = []
  | Alive (AtExcept e) =>
      is_Exception e = true /\ log s = [] /\
      exists n b, raised b = Some e /\ ending_ok b /\
                  thread_events (trace s) = body_events n b
  | Alive (AtFinally p) =>
      exists n b, ending_ok b /\ thread_events (trace s) = body_events n b /\
                  log s = body_log b /\ p = body_pending b
  | Alive Hung =>
      calls_in_order (thread_events (trace s)) = true
      /\ forall rx, In (EvExit rx) (thread_events (trace s)) -> rx = NoReturn
  | Finished r =>
      exists n b rx,
        ending_ok b /\ log s = body_log b /\ rx <> NoReturn /\
        thread_events (trace s) = body_events n b ++ opt_event (exit_fct w) (EvExit rx) /\
        r = match exit_fct w with
            | Some _ => exit_outcome (body_pending b) rx
            | None => pending_outcome (body_pending b)
            end
  end.

Lemma thread_events_app t1 t2 :
  thread_events (t1 ++ t2) = thread_events t1 ++ thread_events t2.
Proof. apply filter_app. Qed.

Lemma mains_ok_snoc n : mains_ok n ++ [EvMain (Ret tt)] = mains_ok (S n).
Proof.
  unfold mains_ok. rewrite <- repeat_cons. reflexivity.
Qed.

Lemma in_init_ok ev : In ev init_ok -> is_init ev = true.
Proof.
  unfold init_ok, opt_event. destruct (init_fct w); cbn; [|tauto].
  intros [<-|[]]. reflexivity.
Qed.

Lemma in_mains_ok ev n : In ev (mains_ok n) -> ev = EvMain (Ret tt).
Proof. unfold mains_ok. intros H. apply repeat_spec in H. exact H. Qed.

Lemma in_body_events ev n b : In ev (body_events n b) -> is_exit ev = false.
Proof.
  destruct b as [|e|e]; cbn; rewrite ?in_app_iff; cbn; intros H.
  - destruct H as [H|H].
    + apply in_init_ok in H. destruct ev; cbn in *; congruence.
    + apply in_mains_ok in H. subst. reflexivity.
  - destruct H as [<-|[]]. reflexivity.
  - destruct H as [H|[H|[<-|[]]]].
    + apply in_init_ok in H. destruct ev; cbn in *; congruence.
    + apply in_mains_ok in H. subst. reflexivity.
    + reflexivity.
Qed.

Lemma forallb_repeat {A} (p : A -> bool) (a : A) n :
  p a = true -> forallb p (repeat a n) = true.
Proof. intros H. induction n; cbn; [reflexivity|]. rewrite H. exact IHn. Qed.

Lemma init_first n b tl :
  ending_ok b -> forallb not_init tl = true ->
  exists ri rest,
    body_events n b ++ tl = opt_event (init_fct w) (EvInit ri) ++ rest
    /\ forallb not_init rest = true.
Proof.
  intros Hok Hx.
  assert (Hm : forallb not_init (mains_ok n) = true).
  { apply forallb_repeat. reflexivity. }
  destruct b as [|e|e]; cbn in *.
  - exists (Ret tt), (mains_ok n ++ tl).
    split; [rewrite <- app_assoc; reflexivity|].
    rewrite forallb_app, Hm, Hx. reflexivity.
  - exists (Raise e), tl.
    split; [|exact Hx].
    destruct (init_fct w); [reflexivity|congruence].
  - exists (Ret tt), (mains_ok n ++ [EvMain (Raise e)] ++ tl).
    split; [rewrite <- !app_assoc; reflexivity|].
    rewrite !forallb_app, Hm, Hx. reflexivity.
Qed.

Lemma calls_in_order_intro ri rest :
  forallb not_init rest = true ->
  calls_in_order (opt_event (init_fct w) (EvInit ri) ++ rest) = true.
Proof.
  intros H. unfold calls_in_order, opt_event.
  destruct (init_fct w); cbn; exact H.
Qed.

Lemma calls_in_order_nil : calls_in_order [] = true.
Proof. unfold calls_in_order. destruct (init_fct w); reflexivity. Qed.

Lemma calls_in_order_body n b tl :
  ending_ok b -> forallb not_init tl = true ->
  calls_in_order (body_events n b ++ tl) = true.
Proof.
  intros Hok Htl. destruct (init_first n b tl Hok Htl) as [ri [rest [-> Hr]]].
  apply calls_in_order_intro, Hr.
Qed.

Lemma inv_initial u reqs : inv (initial u reqs).
Proof. split; reflexivity. Qed.

Lemma inv_thread_step s : inv s -> inv (thread_step w s).
Proof.
  unfold inv, thread_step.
  destruct (thread s) as [|[| |e|p|]|r] eqn:Ht; cbn; try (rewrite Ht; tauto).
  - (* line 162: the call of init *)
    intros [Hev Hlog].
    destruct (init_fct w) as [f|] eqn:Hinit.
    + destruct (f (_args w) (user s)) as [[[]|e|] u'] eqn:Hcall; cbn.
      * exists 0%nat. rewrite thread_events_app, Hev. unfold init_ok.
        rewrite Hinit. split; [reflexivity|exact Hlog].
      * destruct (is_Exception e) eqn:He; cbn.
        -- split; [exact He|]. split; [exact Hlog|].
           exists 0%nat, (InitRaised e). cbn. rewrite thread_events_app, Hev.
           repeat split. congruence.
        -- exists 0%nat, (InitRaised e). cbn. rewrite thread_events_app, Hev.
           unfold body_log, body_pending. cbn. rewrite He.
           repeat split; try assumption. congruence.
      * rewrite thread_events_app, Hev. cbn. split.
        -- unfold calls_in_order. rewrite Hinit. reflexivity.
        -- intros rx [H|[]]. discriminate.
    + cbn. exists 0%nat. unfold init_ok. rewrite Hinit.
      split; assumption.
  - (* line 164: the loop test and the call of main *)
    intros [n [Hev Hlog]].
    destruct (go s).
    + destruct (main_fct w (_args w) (user s)) as [[[]|e|] u'] eqn:Hcall; cbn.
      * exists (S n). rewrite thread_events_app, Hev. cbn.
        rewrite <- app_assoc, mains_ok_snoc. split; [reflexivity|exact Hlog].
      * destruct (is_Exception e) eqn:He; cbn.
        -- split; [exact He|]. split; [exact Hlog|].
           exists n, (MainRaised e). cbn. rewrite thread_events_app, Hev.
           cbn. rewrite <- app_assoc. repeat split.
        -- exists n, (MainRaised e). cbn. rewrite thread_events_app, Hev.
           unfold body_log, body_pending. cbn. rewrite He, <- app_assoc.
           repeat split. exact Hlog.
      * rewrite thread_events_app, Hev. cbn. split.
        -- apply (calls_in_order_body n LoopExit [EvMain NoReturn]);
             [exact I|reflexivity].
        -- intros rx H.
           apply in_app_iff in H. destruct H as [H|[H|[]]]; [|discriminate].
           apply (in_body_events _ n LoopExit) in H. discriminate.
    + cbn. exists n, LoopExit. cbn. repeat split; assumption.
  - (* line 167: the except clause *)
    intros [He [Hlog [n [b [Hb [Hok Hev]]]]]].
    exists n, b. unfold body_log, body_pending. rewrite Hb, He, Hlog.
    repeat split; assumption.
  - (* line 169: the finally block *)
    intros [n [b [Hok [Hev [Hlog Hp]]]]].
    destruct (exit_fct w) as [f|] eqn:Hexit.
    + destruct (f (_args w) (user s)) as [[[]|e|] u'] eqn:Hcall; cbn.
      * exists n, b, (Ret tt). rewrite thread_events_app, Hev, Hp.
        repeat split; try assumption. discriminate.
      * exists n, b, (Raise e). rewrite thread_events_app, Hev.
        repeat split; try assumption. discriminate.
      * rewrite thread_events_app, Hev. cbn. split.
        -- apply calls_in_order_body; [exact Hok|reflexivity].
        -- intros rx H.
           apply in_app_iff in H. destruct H as [H|[H|[]]]; [|congruence].
           apply in_body_events in H. discriminate.
    + cbn. exists n, b, (Ret tt). rewrite Hev, Hp, app_nil_r.
      repeat split; try assumption. discriminate.
Qed.

Lemma inv_owner_step s : inv s -> inv (owner_step s).
Proof.
  unfold inv, owner_step.
  destruct (owner s); try tauto.
  - destruct (todo s) as [|[|] rest]; cbn; try tauto.
    destruct (isAlive (thread s)); cbn; try tauto.
    rewrite thread_events_app. cbn. rewrite app_nil_r. tauto.
  - destruct (thread s) as [| |r] eqn:Ht; cbn; rewrite ?Ht; tauto.
  - destruct (thread s) as [| |r] eqn:Ht; cbn; rewrite ?Ht; try tauto.
    rewrite thread_events_app. cbn. rewrite app_nil_r. tauto.
Qed.

Lemma inv_run sched s : inv s -> inv (run w sched s).
Proof.
  revert s. induction sched as [|[|] sched IH]; intros s H; cbn.
  - exact H.
  - apply IH, inv_thread_step, H.
  - apply IH, inv_owner_step, H.
Qed.

Lemma run_app sched1 sched2 s :
  run w (sched1 ++ sched2) s = run w sched2 (run w sched1 s).
Proof.
  revert s. induction sched1 as [|t sched1 IH]; intros s; cbn.
  - reflexivity.
  - apply IH.
Qed.

(** A terminated thread makes no more calls. *)
Lemma step_finished t s r :
  thread s = Finished r ->
  thread (step w t s) = Finished r
  /\ thread_events (trace (step w t s)) = thread_events (trace s).
Proof.
  intros Ht. destruct t; cbn.
  - unfold thread_step. rewrite Ht. split; [exact Ht|reflexivity].
  - unfold owner_step.
    destruct (owner s); cbn; try (split; [exact Ht|reflexivity]).
    + destruct (todo s) as [|[|] rest]; cbn; try (split; [exact Ht|reflexivity]).
      rewrite Ht. cbn. rewrite thread_events_app, app_nil_r.
      split; [exact Ht|reflexivity].
    + rewrite Ht. cbn. split; [exact Ht|reflexivity].
    + rewrite Ht. cbn. rewrite thread_events_app, app_nil_r.
      split; [exact Ht|reflexivity].
Qed.

Lemma run_finished sched s r :
  thread s = Finished r ->
  thread (run w sched s) = Finished r
  /\ thread_events (trace (run w sched s)) = thread_events (trace s).
Proof.
  revert s. induction sched as [|t sched IH]; intros s Ht; cbn.
  - split; [exact Ht|reflexivity].
  - destruct (step_finished t s r Ht) as [Ht' Hev].
    destruct (IH _ Ht') as [Ht'' Hev'].
    split; [exact Ht''|congruence].
Qed.

(** [stop] returns from [join] only once the thread has terminated. *)
Definition stop_inv (s : system U) : Prop :=
  In (EvStop true) (trace s) -> exists r, thread s = Finished r.

Lemma thread_step_stops s j :
  In (EvStop j) (trace (thread_step w s)) -> In (EvStop j) (trace s).
Proof.
  unfold thread_step.
  destruct (thread s) as [|[| |e|p|]|r]; cbn; try tauto.
  - destruct (init_fct w) as [f|]; [|tauto].
    destruct (f (_args w) (user s)) as [r u']. cbn.
    rewrite in_app_iff. cbn. intros [H|[H|[]]]; [exact H|discriminate].
  - destruct (go s); [|tauto].
    destruct (main_fct w (_args w) (user s)) as [r u']. cbn.
    rewrite in_app_iff. cbn. intros [H|[H|[]]]; [exact H|discriminate].
  - destruct (exit_fct w) as [f|]; [|tauto].
    destruct (f (_args w) (user s)) as [r u']. cbn.
    rewrite in_app_iff. cbn. intros [H|[H|[]]]; [exact H|discriminate].
Qed.

Lemma stop_inv_step t s : stop_inv s -> stop_inv (step w t s).
Proof.
  unfold stop_inv. intros IH H. destruct t; cbn in *.
  - apply thread_step_stops in H. destruct (IH H) as [r Hr].
    exists r. apply (step_finished Thread s r Hr).
  - assert (Hcases : In (EvStop true) (trace s)
                     \/ exists r, thread (owner_step s) = Finished r).
    { revert H. unfold owner_step.
      destruct (owner s); cbn; try tauto.
      - destruct (todo s) as [|[|] rest]; cbn; try tauto.
        destruct (isAlive (thread s)); cbn; try tauto.
        rewrite in_app_iff. cbn. intros [H|[H|[]]]; [tauto|discriminate].
      - destruct (thread s); cbn; tauto.
      - destruct (thread s) as [| |r] eqn:Ht; cbn; try tauto.
        intros _. right. exists r. exact Ht. }
    destruct Hcases as [Hin|Hfin]; [|exact Hfin].
    destruct (IH Hin) as [r Hr].
    exists r. apply (step_finished Owner s r Hr).
Qed.

Lemma stop_inv_run sched s : stop_inv s -> stop_inv (run w sched s).
Proof.
  revert s. induction sched as [|t sched IH]; intros s H; cbn.
  - exact H.
  - apply IH, stop_inv_step, H.
Qed.

(** While [stop] waits in [join], the flag it cleared stays clear; [stop]
    goes on to [clear] and [join] only for a thread that was started. *)
Definition join_inv (s : system U) : Prop :=
  (owner s = Clearing \/ owner s = Joining -> thread s <> Initial)
  /\ (owner s = Joining -> go s = false).

Lemma thread_step_owner s :
  owner (thread_step w s) = owner s /\ go (thread_step w s) = go s
  /\ (thread s <> Initial -> thread (thread_step w s) <> Initial).
Proof.
  unfold thread_step.
  destruct (thread s) as [|[| |e|p|]|r] eqn:Ht; cbn; rewrite ?Ht;
    try (repeat split; congruence).
  - destruct (init_fct w) as [f|]; [|cbn; repeat split; congruence].
    destruct (f (_args w) (user s)) as [r u']. cbn. repeat split; congruence.
  - destruct (go s) eqn:Hgo; [|cbn; repeat split; congruence].
    destruct (main_fct w (_args w) (user s)) as [r u']. cbn.
    repeat split; congruence.
  - destruct (exit_fct w) as [f|]; [|cbn; repeat split; congruence].
    destruct (f (_args w) (user s)) as [[[]|e|] u']; cbn;
      repeat split; congruence.
Qed.

Lemma join_inv_step t s : join_inv s -> join_inv (step w t s).
Proof.
  unfold join_inv. intros [IH1 IH2]. destruct t; cbn.
  - destruct (thread_step_owner s) as [-> [-> Hni]]. split; [|exact IH2].
    intros Ho. apply Hni, IH1, Ho.
  - unfold owner_step. destruct (owner s) eqn:Ho; cbn.
    + destruct (todo s) as [|[|] rest]; cbn; rewrite ?Ho.
      * split; [intros [?|?]|]; congruence.
      * split; [intros [?|?]|]; congruence.
      * destruct (thread s) eqn:Ht; cbn; rewrite ?Ho, ?Ht;
          (split; [intros [?|?]|]; congruence).
    + destruct (thread s); cbn; (split; [intros [?|?]|]; congruence).
    + split; [intros _; apply IH1; tauto|reflexivity].
    + destruct (thread s) eqn:Ht; cbn; rewrite ?Ho, ?Ht.
      * split; [intros [?|?]|]; congruence.
      * split; [congruence|exact IH2].
      * split; [intros [?|?]|]; congruence.
    + rewrite Ho. split; [intros [?|?]|]; congruence.
Qed.

Lemma join_inv_run sched s : join_inv s -> join_inv (run w sched s).
Proof.
  revert s. induction sched as [|t sched IH]; intros s H; cbn.
  - exact H.
  - apply IH, join_inv_step, H.
Qed.

Lemma join_inv_initial u reqs : join_inv (initial u reqs).
Proof. split; [intros [?|?]|]; discriminate. Qed.

Lemma body_events_not_exit n b : forallb not_exit (body_events n b) = true.
Proof.
  apply forallb_forall. intros ev H. apply in_body_events in H.
  unfold not_exit. rewrite H. reflexivity.
Qed.

(** What the loop test of [_run] does, by the value of the flag. *)
Definition loop_contract (s : system U) : Prop :=
  let call := main_fct w (_args w) (user s) in
  (go s = true ->
     trace (thread_step w s) = trace s ++ [EvMain (fst call)]
     /\ user (thread_step w s) = snd call
     /\ (fst call = Ret tt -> thread (thread_step w s) = Alive AtLoop))
  /\ (go s = false ->
     trace (thread_step w s) = trace s
     /\ thread (thread_step w s) = Alive (AtFinally None)).

Lemma loop_step s : thread s = Alive AtLoop -> loop_contract s.
Proof.
  intros Ht. unfold loop_contract, thread_step. rewrite Ht. cbv zeta.
  split; intros Hgo; rewrite Hgo.
  - destruct (main_fct w (_args w) (user s)) as [r u']. cbn.
    repeat split. intros ->. reflexivity.
  - split; reflexivity.
Qed.

(** The calls, the log and the outcome of a run of [_run] that terminated
    with [r]: [n] calls of main that returned, ended as [b] tells, then the
    call of exit that ended as [rx]. *)
Definition terminated_run (s : system U) (r : outcome unit) : Prop :=
  exists n b rx,
    ending_ok b /\ rx <> NoReturn
    /\ thread_events (trace s)
       = body_events n b ++ opt_event (exit_fct w) (EvExit rx)
    /\ forallb not_exit (body_events n b) = true
    /\ (exists ri rest,
          thread_events (trace s) = opt_event (init_fct w) (EvInit ri) ++ rest
          /\ forallb not_init rest = true)
    /\ match raised b with
       | None => log s = []
       | Some e =>
           if is_Exception e
           then log s = [(ERROR, "error: " ++ str e)%string]
           else log s = []
       end
    /\ r = match exit_fct w, rx with
           | Some _, Raise ex => Raise ex
           | _, _ =>
               match raised b with
               | None => Ret tt
               | Some e => if is_Exception e then Ret tt else Raise e
               end
           end.

Lemma finished_run s r :
  inv s -> thread s = Finished r -> terminated_run s r.
Proof.
  unfold inv. intros H Ht. rewrite Ht in H.
  destruct H as [n [b [rx [Hok [Hlog [Hrx [Hev Hr]]]]]]].
  exists n, b, rx. split; [exact Hok|]. split; [exact Hrx|].
  split; [exact Hev|]. split; [apply body_events_not_exit|].
  split; [rewrite Hev; apply init_first;
          [exact Hok|destruct (exit_fct w); reflexivity]|].
  split.
  - rewrite Hlog. unfold body_log. destruct (raised b) as [e|]; [|reflexivity].
    destruct (is_Exception e); reflexivity.
  - rewrite Hr. unfold body_pending, exit_outcome, pending_outcome.
    destruct (exit_fct w), rx as [[]|ex|], (raised b) as [e|];
      try destruct (is_Exception e); try reflexivity; congruence.
Qed.

Lemma inv_calls_in_order s :
  inv s -> calls_in_order (thread_events (trace s)) = true.
Proof.
  unfold inv. destruct (thread s) as [|[| |e|p|]|r].
  - intros [-> _]. apply calls_in_order_nil.
  - intros [-> _]. apply calls_in_order_nil.
  - intros [n [-> _]].
    rewrite <- (app_nil_r (init_ok ++ mains_ok n)).
    apply (calls_in_order_body n LoopExit []); [exact I|reflexivity].
  - intros [_ [_ [n [b [_ [Hok ->]]]]]].
    rewrite <- (app_nil_r (body_events n b)).
    apply calls_in_order_body; [exact Hok|reflexivity].
  - intros [n [b [Hok [-> _]]]].
    rewrite <- (app_nil_r (body_events n b)).
    apply calls_in_order_body; [exact Hok|reflexivity].
  - intros [H _]. exact H.
  - intros [n [b [rx [Hok [_ [_ [-> _]]]]]]].
    apply calls_in_order_body; [exact Hok|].
    destruct (exit_fct w); reflexivity.
Qed.

End Runs.

(** *** Example workers *)

(** Counts its calls of main; main fails at the third call. *)
Definition flaky_main (_ : unit) (n : nat) : outcome unit * nat :=
  if (n <? 2)%nat then (Ret tt, S n) else (Raise (Exc "IOError" "link down"), n).

Definition flaky_worker : WorkerThread nat unit :=
  {| init_fct := Some (fun _ _ => (Ret tt, 0%nat));
     main_fct := flaky_main;
     exit_fct := Some (fun _ n => (Ret tt, (n + 100)%nat));
     _args := tt |}.

Definition flaky_schedule : list turn :=
  [Owner; Owner; Thread; Thread; Thread; Thread; Thread; Thread].

(** Main leaves through [sys.exit()]. *)
Definition system_exit : exn := BaseExc "SystemExit" "".

Definition exiting_worker : WorkerThread unit unit :=
  {| init_fct := None;
     main_fct := fun _ u => (Raise system_exit, u);
     exit_fct := None;
     _args := tt |}.

(** Main always returns; exit fails. *)
Definition steady_worker : WorkerThread nat unit :=
  {| init_fct := None;
     main_fct := fun _ n => (Ret tt, S n);
     exit_fct := Some (fun _ n => (Raise (Exc "IOError" "port busy"), n));
     _args := tt |}.

Definition stop_schedule : list turn :=
  [Owner; Owner; Thread; Thread; Owner; Owner; Owner; Thread; Thread; Owner].

Example flaky_trace :
  trace (run flaky_worker flaky_schedule (initial 7%nat [Start]))
  = [EvInit (Ret tt); EvMain (Ret tt); EvMain (Ret tt);
     EvMain (Raise (Exc "IOError" "link down")); EvExit (Ret tt)].
Proof. reflexivity. Qed.

Example steady_trace :
  trace (run steady_worker stop_schedule (initial 0%nat [Start; Stop]))
  = [EvMain (Ret tt); EvExit (Raise (Exc "IOError" "port busy")); EvStop true].
Proof. reflexivity. Qed.

(** *** Main results *)




(** What holds once a call of [stop()] that found the thread alive has
    returned. *)
Definition joined {U Args : Type} (w : WorkerThread U Args) (s : system U) : Prop :=
  exists r,
    thread s = Finished r
    /\ (exit_fct w <> None ->
        exists body rx, thread_events (trace s) = body ++ [EvExit rx])
    /\ forall more,
         thread (run w more s) = Finished r
         /\ thread_events (trace (run w more s)) = thread_events (trace s).

(** C5.  For every worker, owner and schedule, in every state that is
    reached: a call of [stop()] that finds the thread alive goes on to clear
    the run-flag and to join; while it waits in join the flag is clear and,
    as long as the thread has not terminated, [stop] does not return; once it
    has returned the thread has terminated, exit (if given) has been called,
    and whatever runs next no call of init, main or exit is made; a call of
    [stop()] that finds the thread not alive returns at once and changes
    neither the flag, the thread, the program state nor the log. *)
Theorem stop_joins_thread
  {U Args : Type} (w : WorkerThread U Args) (u : U) (reqs : list request)
  (sched : list turn) :
  let s := run w sched (initial u reqs) in
  (forall rest, owner s = Idle -> todo s = Stop :: rest ->
     isAlive (thread s) = true ->
     owner (owner_step s) = Clearing
     /\ go (owner_step (owner_step s)) = false
     /\ owner (owner_step (owner_step s)) = Joining)
  /\ (owner s = Joining ->
      go s = false
      /\ ((forall r, thread s <> Finished r) -> owner_step s = s)
      /\ (forall r, thread s = Finished r ->
            trace (owner_step s) = trace s ++ [EvStop true]
            /\ owner (owner_step s) = Idle))
  /\ (In (EvStop true) (trace s) -> joined w s)
  /\ (forall rest, owner s = Idle -> todo s = Stop :: rest ->
      isAlive (thread s) = false ->
      owner_step s = emit (EvStop false) (set_todo rest s)).
Proof.
  intros s.
  assert (Hinv : inv w s) by (apply inv_run, inv_initial).
  assert (Hstop : stop_inv s).
  { apply stop_inv_run. intros H. destruct H. }
  assert (Hjoin : join_inv s) by (apply join_inv_run, join_inv_initial).
  clearbody s. split; [|split; [|split]].
  - intros rest Ho Htodo Halive. unfold owner_step at 2 3.
    rewrite Ho, Htodo, Halive. cbn.
    unfold owner_step. rewrite Ho, Htodo, Halive. cbn. repeat split.
  - intros Ho. destruct Hjoin as [Hni Hgo]. split; [apply Hgo, Ho|].
    unfold owner_step. rewrite Ho. split.
    + intros Hnf. destruct (thread s) as [| |r] eqn:Ht.
      * exfalso. apply Hni; [right; exact Ho|reflexivity].
      * reflexivity.
      * exfalso. apply (Hnf r). reflexivity.
    + intros r ->. cbn. split; reflexivity.
  - intros Hin. destruct (Hstop Hin) as [r Hr]. exists r.
    split; [exact Hr|]. split.
    + intros Hexit.
      destruct (finished_run w s r Hinv Hr)
        as [n [b [rx [_ [_ [Hev _]]]]]].
      exists (body_events w n b), rx. rewrite Hev.
      destruct (exit_fct w); [reflexivity|congruence].
    + intros more. apply run_finished. exact Hr.
  - intros rest Ho Htodo Halive. unfold owner_step.
    rewrite Ho, Htodo, Halive. reflexivity.
Qed.

Lemma stop_joins_thread_witness :
  let s := run steady_worker stop_schedule (initial 0%nat [Start; Stop]) in
  In (EvStop true) (trace s) /\ joined steady_worker s.
Proof.
  cbv zeta. split.
  - right. right. left. reflexivity.
  - apply (stop_joins_thread steady_worker 0%nat [Start; Stop] stop_schedule).
    right. right. left. reflexivity.
Defined.

(** C10.  For every worker whose exit function raises, at the [finally]
    block or in a whole run: the exception is the outcome of [_run], and the
    worker logs nothing for it: the log holds what the [except] clause wrote
    for init or main, which the call of exit leaves as it is. *)
Theorem exit_exception_escapes
  {U Args : Type} (w : WorkerThread U Args) (u : U) (reqs : list request)
  (sched : list turn) (e : exn) :
  let s := run w sched (initial u reqs) in
  (forall pending f u',
     thread s = Alive (AtFinally pending) -> exit_fct w = Some f ->
     f (_args w) (user s) = (Raise e, u') ->
     thread (thread_step w s) = Finished (Raise e)
     /\ log (thread_step w s) = log s)
  /\ (In (EvExit (Raise e)) (trace s) ->
      thread s = Finished (Raise e)
      /\ exists n b,
          thread_events (trace s) = body_events w n b ++ [EvExit (Raise e)]
          /\ log s = body_log b).
Proof.
  intros s.
  assert (Hinv : inv w s) by (apply inv_run, inv_initial).
  clearbody s. split.
  - intros pending f u' Ht Hf Hcall. unfold thread_step.
    rewrite Ht, Hf, Hcall. cbn. split; reflexivity.
  - intros Hin.
    assert (Hin' : In (EvExit (Raise e)) (thread_events (trace s))).
    { apply filter_In. split; [exact Hin|reflexivity]. }
    unfold inv in Hinv.
    destruct (thread s) as [|[| |e0|p|]|r] eqn:Ht.
    + destruct Hinv as [Hev _]. rewrite Hev in Hin'. destruct Hin'.
    + destruct Hinv as [Hev _]. rewrite Hev in Hin'. destruct Hin'.
    + destruct Hinv as [n [Hev _]]. rewrite Hev in Hin'.
      apply (in_body_events w _ n LoopExit) in Hin'. discriminate.
    + destruct Hinv as [_ [_ [n [b [_ [_ Hev]]]]]]. rewrite Hev in Hin'.
      apply in_body_events in Hin'. discriminate.
    + destruct Hinv as [n [b [_ [Hev _]]]]. rewrite Hev in Hin'.
      apply in_body_events in Hin'. discriminate.
    + apply (proj2 Hinv) in Hin'. discriminate.
    + destruct Hinv as [n [b [rx [Hok [Hlog [Hrx [Hev Hr]]]]]]].
      rewrite Hev in Hin'. apply in_app_iff in Hin'.
      destruct Hin' as [Hin'|Hin'];
        [apply in_body_events in Hin'; discriminate|].
      destruct (exit_fct w) as [f|]; [|destruct Hin'].
      destruct Hin' as [Heq|[]]. inversion Heq; subst rx.
      split; [rewrite Hr; reflexivity|].
      exists n, b. split; [exact Hev|exact Hlog].
Qed.

Lemma exit_exception_escapes_witness :
  let s := run steady_worker stop_schedule (initial 0%nat [Start; Stop]) in
  let e := Exc "IOError" "port busy" in
  In (EvExit (Raise e)) (trace s)
  /\ thread s = Finished (Raise e)
  /\ log s = [].
Proof.
  cbv zeta. split; [right; left; reflexivity|].
  destruct (proj2 (exit_exception_escapes steady_worker 0%nat [Start; Stop]
                     stop_schedule (Exc "IOError" "port busy")))
    as [Hfin _].
  - right. left. reflexivity.
  - split; [exact Hfin|reflexivity].
Defined.

End WorkerFacts.

(** ** [flush_socket] and the [SerialSocketEmulator] class *)

Module SerialFacts.
Import Py Serial.

(** *** Example socket layers *)

(** A peer that always has data to read and takes two bytes per [send];
    sockets are numbered in the order of their creation. *)
Definition chatty : SocketLayer nat nat := {|
  socket_socket := fun o => (Ret o, S o);
  sock_settimeout := fun _ _ o => (Ret tt, o);
  sock_connect := fun _ _ o => (Ret tt, o);
  sock_close := fun _ o => (Ret tt, o);
  sock_recv := fun _ n o =>
    if n <? 0
    then (Raise (Exc "ValueError" "negative buffersize in recv"), o)
    else (Ret (firstn (Z.to_nat n) [x01; x02; x03; x04]%byte), o);
  sock_send := fun _ data o => (Ret (Z.min 2 (Z.of_nat (List.length data))), o);
  select_select := fun rl wl _ o => (Ret (rl, wl, []), o)
|}.

(** A host that refuses the connection. *)
Definition unreachable : SocketLayer nat nat := {|
  socket_socket := fun o => (Ret o, S o);
  sock_settimeout := fun _ _ o => (Ret tt, o);
  sock_connect := fun _ _ o =>
    (Raise (SocketError "[Errno 111] Connection refused"), o);
  sock_close := fun _ o => (Ret tt, o);
  sock_recv := fun _ _ o =>
    (Raise (SocketError "[Errno 107] Transport endpoint is not connected"), o);
  sock_send := fun _ _ o => (Raise (SocketError "[Errno 32] Broken pipe"), o);
  select_select := fun _ wl _ o => (Ret ([], wl, []), o)
|}.

(** A peer that takes one byte per [send] and resets the connection once
    it has answered as many calls as the layer state counts. *)
Definition resetting : SocketLayer nat nat := {|
  socket_socket := fun o => (Ret 0%nat, o);
  sock_settimeout := fun _ _ o => (Ret tt, o);
  sock_connect := fun _ _ o => (Ret tt, o);
  sock_close := fun _ o => (Ret tt, o);
  sock_recv := fun _ _ o => (Ret [], o);
  sock_send := fun _ _ o =>
    match o with
    | O => (Raise (SocketError "[Errno 104] Connection reset by peer"), O)
    | S o' => (Ret 1, o')
    end;
  select_select := fun _ wl _ o => (Ret ([], wl, []), o)
|}.

(** An adapter just built, and one whose socket is number 0. *)
Definition fresh : state nat nat :=
  {| self := __init__ "10.0.0.7" 502; os := 0%nat; log := []; calls := [] |}.

Definition connected : state nat nat :=
  {| self := {| _sock := Some 0%nat; _host := "10.0.0.7"; _port := 502;
                name := "10.0.0.7/502"; baudrate := 9600;
                interCharTimeout := 0; timeout := 1 |};
     os := 1%nat; log := []; calls := [] |}.

Example open_chatty :
  open (layer := chatty) fresh
  = (Ret tt,
     {| self := self connected; os := 1%nat; log := [];
        calls := [Socket (Ret 0%nat); Settimeout 0%nat 1 (Ret tt);
                  Connect 0%nat ("10.0.0.7"%string, 502) (Ret tt)] |}).
Proof. reflexivity. Qed.

Example open_unreachable :
  log (snd (open (layer := unreachable) fresh))
  = [(WARNING,
      "Couldn't open socket 10.0.0.7:502: [Errno 111] Connection refused"%string)].
Proof. reflexivity. Qed.

Example write_chatty :
  write (layer := chatty) 4 [x0a; x0b; x0c; x0d; x0e]%byte connected
  = (Ret tt,
     {| self := self connected; os := 1%nat; log := [];
        calls := [Send 0%nat [x0a; x0b; x0c; x0d; x0e]%byte (Ret 2);
                  Send 0%nat [x0c; x0d; x0e]%byte (Ret 2);
                  Send 0%nat [x0e]%byte (Ret 1)] |}).
Proof. reflexivity. Qed.

Example flushInput_chatty :
  flushInput (layer := chatty) 3 connected
  = (Ret tt,
     {| self := {| _sock := Some 1%nat; _host := "10.0.0.7"; _port := 502;
                   name := "10.0.0.7/502"; baudrate := 9600;
                   interCharTimeout := 0; timeout := 1 |};
        os := 2%nat;
        log := [(ERROR,
                 "Error while flushing the socket: flush_socket: maximum number of iterations reached"%string)];
        calls :=
          [Select [0%nat] (Ret ([0%nat], [0%nat], []));
           Recv 0%nat 1024 (Ret [x01; x02; x03; x04]%byte);
           Select [0%nat] (Ret ([0%nat], [0%nat], []));
           Recv 0%nat 1024 (Ret [x01; x02; x03; x04]%byte);
           Select [0%nat] (Ret ([0%nat], [0%nat], []));
           Recv 0%nat 1024 (Ret [x01; x02; x03; x04]%byte);
           Close 0%nat (Ret tt); Socket (Ret 1%nat);
           Settimeout 1%nat 1 (Ret tt);
           Connect 1%nat ("10.0.0.7"%string, 502) (Ret tt)] |}).
Proof. reflexivity. Qed.

(** *** The drain loop *)

Section Layer.
Context {OS sock : Type} {layer : SocketLayer OS sock}.

(** [select] reports the socket readable, whenever it is asked. *)
Definition always_pending (s : sock) : Prop :=
  forall o, exists ws es o',
    select_select [s] [s] [s] o = (Ret ([s], ws, es), o').

(** Every [recv] of up to [n] bytes on the socket returns. *)
Definition recv_succeeds (s : sock) (n : Z) : Prop :=
  forall o, exists d o', sock_recv s n o = (Ret d, o').

Definition is_recv (c : call sock) : bool :=
  match c with Recv _ _ _ => true | _ => false end.

(** The number of drain attempts recorded. *)
Definition drains (cs : list (call sock)) : nat :=
  List.length (filter is_recv cs).

(** The adapter object and the log are as they were. *)
Definition same_object (st st' : state OS sock) : Prop :=
  self st' = self st /\ log st' = log st.

Lemma drains_app cs cs' : drains (cs ++ cs') = (drains cs + drains cs')%nat.
Proof. unfold drains. rewrite filter_app, length_app. reflexivity. Qed.

(** One turn of the loop on a socket that is reported readable. *)
Lemma flush_loop_turn s lim cnt st :
  always_pending s ->
  exists st1,
    same_object st st1 /\ drains (calls st1) = drains (calls st)
    /\ forall fuel,
       flush_loop (S fuel) [Some s] lim cnt st
       = match recv s 1024 st1 with
         | (Ret _, st2) =>
             if lim >? 0 then
               if cnt + 1 >=? lim then (Raise limit_reached, st2)
               else flush_loop fuel [Some s] lim (cnt + 1) st2
             else flush_loop fuel [Some s] lim cnt st2
         | (Raise e, st2) => (Raise e, st2)
         | (NoReturn, st2) => (NoReturn, st2)
         end.
Proof.
  intros Hp. destruct (Hp (os st)) as [ws [es [o' Hsel]]].
  exists {| self := self st; os := o'; log := log st;
            calls := calls st ++ [Select [s] (Ret ([s], ws, es))] |}.
  split; [split; reflexivity|]. split.
  - cbn [calls]. rewrite drains_app. cbn. apply Nat.add_0_r.
  - intros fuel.
    cbn [flush_loop]. unfold bind at 1. unfold select. cbn [socks_of option_map].
    unfold os_call at 1. rewrite Hsel. cbn [List.length Z.of_nat].
    cbn [Z.eqb Pos.of_succ_nat]. cbn [for_each].
    unfold bind at 1. unfold bind at 1.
    destruct (recv s 1024 _) as [[d|e|] st2]; try reflexivity.
    unfold ret. destruct (lim >? 0); [|reflexivity].
    destruct (cnt + 1 >=? lim); reflexivity.
Qed.

Lemma recv_effect s n st :
  same_object st (snd (recv s n st))
  /\ drains (calls (snd (recv s n st))) = S (drains (calls st))
  /\ (recv_succeeds s n -> exists d, fst (recv s n st) = Ret d).
Proof.
  unfold recv, os_call.
  destruct (sock_recv s n (os st)) as [r o'] eqn:Hr. cbn [fst snd calls].
  split; [split; reflexivity|]. split.
  - rewrite drains_app. cbn. lia.
  - intros Hs. destruct (Hs (os st)) as [d [o'' Hd]].
    exists d. congruence.
Qed.

(** With a limit, the loop on a socket that stays readable stops within
    [lim - cnt] turns, whatever the fuel beyond that. *)
Lemma flush_loop_limit s lim :
  always_pending s ->
  forall k fuel cnt st,
    0 <= cnt -> Z.of_nat (S k) = lim - cnt -> (S k <= fuel)%nat ->
    flush_loop fuel [Some s] lim cnt st = flush_loop (S k) [Some s] lim cnt st
    /\ same_object st (snd (flush_loop (S k) [Some s] lim cnt st))
    /\ (drains (calls (snd (flush_loop (S k) [Some s] lim cnt st)))
        <= drains (calls st) + S k)%nat
    /\ fst (flush_loop (S k) [Some s] lim cnt st) <> Ret tt
    /\ (recv_succeeds s 1024 ->
        fst (flush_loop (S k) [Some s] lim cnt st) = Raise limit_reached
        /\ drains (calls (snd (flush_loop (S k) [Some s] lim cnt st)))
           = (drains (calls st) + S k)%nat).
Proof.
  intros Hp. induction k as [|k IH]; intros fuel cnt st Hcnt Hk Hfuel;
    (destruct fuel as [|fuel]; [lia|]);
    destruct (flush_loop_turn s lim cnt st Hp) as [st1 [[Hs1 Hl1] [Hd1 Hturn]]];
    rewrite !Hturn;
    destruct (recv_effect s 1024 st1) as [[Hs2 Hl2] [Hd2 Hok]];
    destruct (recv s 1024 st1) as [[d|e|] st2]; cbn [fst snd] in *;
    try (split; [reflexivity|]; split; [split; congruence|];
         split; [lia|]; split; [discriminate|];
         intros Hr; destruct (Hok Hr) as [d Hd]; discriminate).
  - replace (lim >? 0) with true by (symmetry; apply Z.gtb_lt; lia).
    replace (cnt + 1 >=? lim) with true by (symmetry; apply Z.geb_le; lia).
    cbn [fst snd]. split; [reflexivity|]. split; [split; congruence|].
    split; [lia|]. split; [discriminate|]. intros _. split; [reflexivity|lia].
  - replace (lim >? 0) with true by (symmetry; apply Z.gtb_lt; lia).
    replace (cnt + 1 >=? lim) with false
      by (symmetry; rewrite Z.geb_leb; apply Z.leb_gt; lia).
    destruct (IH fuel (cnt + 1) st2) as [He [[Hs3 Hl3] [Hd3 [Hne Hrs]]]];
      [lia|lia|lia|].
    split; [exact He|]. split; [split; congruence|].
    split; [lia|]. split; [exact Hne|].
    intros Hr. destruct (Hrs Hr) as [Hraise Hdr]. split; [exact Hraise|lia].
Qed.

(** *** The send loop *)

(** The socket layer hands over at most the number of bytes asked for. *)
Definition recv_bounded : Prop :=
  forall s n o d o',
    sock_recv s n o = (Ret d, o') -> Z.of_nat (List.length d) <= n.

(** A [send] of a non-empty buffer takes at least one byte of it, and no
    more than it holds. *)
Definition send_progress (s : sock) : Prop :=
  forall data o, data <> [] ->
    exists n o', sock_send s data o = (Ret n, o')
                 /\ 1 <= n <= Z.of_nat (List.length data).

(** The bytes taken by the socket layer. *)
Fixpoint accepted (l : list (list byte * outcome Z)) : list byte :=
  match l with
  | [] => []
  | (data, Ret n) :: rest => firstn (Z.to_nat n) data ++ accepted rest
  | _ :: rest => accepted rest
  end.

(** How the calls of [send] made for one payload end. *)
Inductive send_end : Type :=
| AllSent
| SendRaised (e : exn)
| SendBlocked.

(** The answers of the socket layer to the payload [string] offered piece
    by piece: from the count [k] and the layer state [o], each [send] is
    given the bytes of [string] from [k] on; an answer [n] moves the count to
    [k + n], and the calls stop when the count reaches the length of
    [string], when the layer raises, or when it does not return.  The list
    holds each buffer offered with the layer's answer, and the last layer
    state is given beside it. *)
Inductive sending (s : sock) (string : list byte)
  : Z -> OS -> list (list byte * outcome Z) -> OS -> send_end -> Prop :=
| sending_done k o :
    Z.of_nat (List.length string) <= k ->
    sending s string k o [] o AllSent
| sending_more k o n o1 l o2 r :
    0 <= k < Z.of_nat (List.length string) ->
    sock_send s (skipn (Z.to_nat k) string) o = (Ret n, o1) ->
    sending s string (k + n) o1 l o2 r ->
    sending s string k o ((skipn (Z.to_nat k) string, Ret n) :: l) o2 r
| sending_raised k o e o1 :
    0 <= k < Z.of_nat (List.length string) ->
    sock_send s (skipn (Z.to_nat k) string) o = (Raise e, o1) ->
    sending s string k o [(skipn (Z.to_nat k) string, Raise e)] o1
      (SendRaised e)
| sending_blocked k o o1 :
    0 <= k < Z.of_nat (List.length string) ->
    sock_send s (skipn (Z.to_nat k) string) o = (NoReturn, o1) ->
    sending s string k o [(skipn (Z.to_nat k) string, NoReturn)] o1
      SendBlocked.

(** The state after a [send] that ended with [r]. *)
Definition after_send (st : state OS sock) (s : sock) (data : list byte)
  (r : outcome Z) (o : OS) : state OS sock :=
  {| self := self st; os := o; log := log st;
     calls := calls st ++ [Send s data r] |}.

Lemma write_loop_turn fuel string k st s :
  _sock (self st) = Some s ->
  k < Z.of_nat (List.length string) ->
  write_loop (S fuel) string k st
  = match sock_send s (slice_from string k) (os st) with
    | (Ret n, o) =>
        write_loop fuel string (k + n)
          (after_send st s (slice_from string k) (Ret n) o)
    | (Raise e, o) =>
        (Raise e, after_send st s (slice_from string k) (Raise e) o)
    | (NoReturn, o) =>
        (NoReturn, after_send st s (slice_from string k) NoReturn o)
    end.
Proof.
  intros Hs Hk. cbn [write_loop].
  replace (k <? Z.of_nat (List.length string)) with true
    by (symmetry; apply Z.ltb_lt; exact Hk).
  unfold bind at 1, get. rewrite Hs. unfold method, bind at 1, send, os_call.
  destruct (sock_send s (slice_from string k) (os st)) as [[n|e|] o];
    reflexivity.
Qed.

Lemma write_loop_done fuel string k st :
  Z.of_nat (List.length string) <= k ->
  write_loop (S fuel) string k st = (Ret tt, st).
Proof.
  intros Hk. cbn [write_loop].
  replace (k <? Z.of_nat (List.length string)) with false
    by (symmetry; apply Z.ltb_ge; exact Hk).
  reflexivity.
Qed.

Lemma slice_from_nonneg string k :
  0 <= k -> slice_from string k = skipn (Z.to_nat k) string.
Proof.
  intros Hk. unfold slice_from.
  replace (k <? 0) with false by (symmetry; apply Z.ltb_ge; exact Hk).
  reflexivity.
Qed.

(** The loop of [write] holds exactly the conversation [sending]. *)
Lemma write_loop_sending s string k o l o2 r :
  sending s string k o l o2 r ->
  forall st fuel,
    _sock (self st) = Some s -> os st = o ->
    (List.length l + match r with AllSent => 1 | _ => 0 end <= fuel)%nat ->
    write_loop fuel string k st
    = (match r with
       | AllSent => Ret tt
       | SendRaised e => Raise e
       | SendBlocked => NoReturn
       end,
       {| self := self st; os := o2; log := log st;
          calls := calls st ++ map (fun c => Send s (fst c) (snd c)) l |}).
Proof.
  induction 1 as [k o Hk|k o n o1 l o2 r Hk Hsend Hrest IH
                  |k o e o1 Hk Hsend|k o o1 Hk Hsend];
    intros st fuel Hs Ho Hf; cbn [List.length] in Hf;
    (destruct fuel as [|fuel]; [first [lia|destruct r; lia]|]).
  - rewrite (write_loop_done fuel string k st Hk). cbn [map].
    rewrite app_nil_r, <- Ho. destruct st; reflexivity.
  - rewrite (write_loop_turn fuel string k st s Hs) by lia.
    rewrite slice_from_nonneg, Ho, Hsend by lia.
    rewrite IH; [|exact Hs|reflexivity|lia].
    cbn [after_send self log calls map fst snd]. rewrite <- app_assoc.
    reflexivity.
  - rewrite (write_loop_turn fuel string k st s Hs) by lia.
    rewrite slice_from_nonneg, Ho, Hsend by lia. reflexivity.
  - rewrite (write_loop_turn fuel string k st s Hs) by lia.
    rewrite slice_from_nonneg, Ho, Hsend by lia. reflexivity.
Qed.

(** A layer that takes at least one byte at each [send] takes the whole
    payload, in no more calls than there are bytes left. *)
Lemma sending_progress s string :
  send_progress s ->
  forall m k o,
    0 <= k -> (Z.to_nat (Z.of_nat (List.length string) - k) <= m)%nat ->
    exists l o2,
      sending s string k o l o2 AllSent
      /\ accepted l = skipn (Z.to_nat k) string
      /\ (List.length l <= m)%nat.
Proof.
  intros Hprog. induction m as [|m IH]; intros k o Hk0 Hm.
  - exists [], o. split; [apply sending_done; lia|].
    split; [|cbn; lia]. cbn [accepted]. symmetry. apply skipn_all2. lia.
  - destruct (Z.lt_ge_cases k (Z.of_nat (List.length string))) as [Hk|Hk].
    + assert (Hne : skipn (Z.to_nat k) string <> []).
      { intros Hnil. apply (f_equal (@List.length byte)) in Hnil.
        rewrite length_skipn in Hnil. cbn in Hnil. lia. }
      destruct (Hprog _ o Hne) as [n [o1 [Hsend Hn]]].
      rewrite length_skipn in Hn.
      destruct (IH (k + n) o1) as [l [o2 [Hl [Hacc Hlen]]]]; [lia|lia|].
      exists ((skipn (Z.to_nat k) string, Ret n) :: l), o2.
      split; [apply (sending_more s string k o n o1 l o2 AllSent);
              [lia|exact Hsend|exact Hl]|].
      split; [|cbn [List.length]; lia].
      cbn [accepted]. rewrite Hacc.
      replace (Z.to_nat (k + n)) with (Z.to_nat n + Z.to_nat k)%nat by lia.
      rewrite <- skipn_skipn. apply firstn_skipn.
    + exists [], o. split; [apply sending_done; lia|].
      split; [|cbn; lia]. cbn [accepted]. symmetry. apply skipn_all2. lia.
Qed.

(** [write] without a socket: the first turn of the loop raises the
    [AttributeError] of [None.send], which the second clause logs. *)
Lemma write_logs_missing_socket fuel string st :
  _sock (self st) = None -> string <> [] ->
  write (S fuel) string st
  = (Ret tt,
     {| self := self st; os := os st;
        log := log st
               ++ [(ERROR,
                    "Couldn't write to socket: 'NoneType' object has no attribute 'send'"%string)];
        calls := calls st |}).
Proof.
  intros Hs Hne. unfold write, try_except. cbv zeta. cbn [write_loop].
  replace (0 <? Z.of_nat (List.length string)) with true
    by (symmetry; apply Z.ltb_lt; destruct string; [congruence|cbn; lia]).
  unfold bind at 1, get. rewrite Hs. reflexivity.
Qed.

(** What [write] makes of the outcome of its loop. *)
Lemma write_outcome fuel string st :
  write fuel string st
  = match write_loop fuel string 0 st with
    | (Raise e, st1) =>
        if is_Exception e
        then logger (if is_socket_error e then WARNING else ERROR)
               ("Couldn't write to socket: " ++ str e) st1
        else (Raise e, st1)
    | r => r
    end.
Proof.
  unfold write, try_except. cbv zeta.
  destruct (write_loop fuel string 0 st) as [[[]|e|] st1]; try reflexivity.
  destruct e; reflexivity.
Qed.

(** What [read] makes of the outcome of [recv]. *)
Lemma read_outcome bufsize st s :
  _sock (self st) = Some s ->
  read bufsize st
  = match recv s bufsize st with
    | (Ret d, st1) => (Ret d, st1)
    | (Raise e, st1) =>
        if is_Exception e
        then (Ret [],
              snd (logger (if is_socket_error e then WARNING else ERROR)
                     ("Couldn't read from socket: " ++ str e) st1))
        else (Raise e, st1)
    | (NoReturn, st1) => (NoReturn, st1)
    end.
Proof.
  intros Hs. unfold read, bind at 1, try_except, bind at 1, get.
  rewrite Hs. unfold method, bind at 1.
  destruct (recv s bufsize st) as [[d|e|] st1]; try reflexivity.
  destruct e; reflexivity.
Qed.

Lemma read_without_socket bufsize st :
  _sock (self st) = None ->
  read bufsize st
  = (Ret [],
     snd (logger ERROR
            "Couldn't read from socket: 'NoneType' object has no attribute 'recv'"
            st)).
Proof.
  intros Hs. unfold read, bind at 1, try_except, bind at 1, get.
  rewrite Hs. reflexivity.
Qed.

(** What [flushInput] does once the drain has raised [e]: the [except]
    clause logs the error and calls [open]. *)
Definition reconnect (e : exn) : M (state OS sock) unit :=
  bind (logger ERROR ("Error while flushing the socket: " ++ str e))
       (fun _ => open).

Lemma flushInput_handler fuel st e st1 :
  flush_socket fuel (_sock (self st)) 3 st = (Raise e, st1) ->
  is_Exception e = true ->
  flushInput fuel st = reconnect e st1.
Proof.
  intros Hf He. unfold flushInput, try_except, bind at 1, get.
  rewrite Hf. cbn [find_clause]. rewrite He. reflexivity.
Qed.

End Layer.

(** *** Main results *)

(** C2, as the code has it.  For every socket that continuously reports
    pending inbound data, the drain [flush_socket(sock, 3)] run by
    [flushInput()] makes at most 3 drain attempts and never returns
    normally, whatever the fuel from 3 on; when every receive succeeds it
    makes exactly 3 attempts and raises the iteration-limit error.
    [flushInput] catches the error of the drain (any [Exception]), logs it
    and calls [open()]: the outcome of [flushInput] is that of [open()], and
    the iteration-limit error does not reach its caller. *)
Theorem flushInput_drain_limit
  {OS sock : Type} {layer : SocketLayer OS sock}
  (s : sock) (st : state OS sock) (fuel : nat) :
  _sock (self st) = Some s -> always_pending s -> (3 <= fuel)%nat ->
  let drained := flush_socket fuel (Some s) 3 st in
  drained = flush_socket 3 (Some s) 3 st
  /\ fst drained <> Ret tt
  /\ (drains (calls (snd drained)) <= drains (calls st) + 3)%nat
  /\ same_object st (snd drained)
  /\ (forall e, fst drained = Raise e -> is_Exception e = true ->
      flushInput fuel st = reconnect e (snd drained))
  /\ (recv_succeeds s 1024 ->
      fst drained = Raise limit_reached
      /\ drains (calls (snd drained)) = (drains (calls st) + 3)%nat
      /\ flushInput fuel st = reconnect limit_reached (snd drained)).
Proof.
  intros Hsock Hp Hfuel. cbv zeta. unfold flush_socket. cbv zeta.
  destruct (flush_loop_limit s 3 Hp 2%nat fuel 0 st)
    as [He [Hso [Hd [Hne Hrs]]]]; [lia|reflexivity|exact Hfuel|].
  assert (Hh : forall e,
             fst (flush_loop fuel [Some s] 3 0 st) = Raise e ->
             is_Exception e = true ->
             flushInput fuel st
             = reconnect e (snd (flush_loop fuel [Some s] 3 0 st))).
  { intros e Hr Hex. apply flushInput_handler; [|exact Hex].
    rewrite Hsock. unfold flush_socket. cbv zeta.
    destruct (flush_loop fuel [Some s] 3 0 st) as [r st1].
    cbn [fst snd] in *. congruence. }
  rewrite He in *.
  split; [reflexivity|]. split; [exact Hne|]. split; [exact Hd|].
  split; [exact Hso|]. split; [exact Hh|].
  intros Hr. destruct (Hrs Hr) as [Hraise Hdr].
  split; [exact Hraise|]. split; [exact Hdr|].
  apply Hh; [exact Hraise|reflexivity].
Qed.

Lemma chatty_always_pending : always_pending (layer := chatty) 0%nat.
Proof. intros o. exists [0%nat], [], o. reflexivity. Qed.

Lemma chatty_recv_succeeds : recv_succeeds (layer := chatty) 0%nat 1024.
Proof.
  intros o. exists [x01; x02; x03; x04]%byte, o. reflexivity.
Qed.

Lemma flushInput_drain_limit_witness :
  fst (flush_socket (layer := chatty) 5 (Some 0%nat) 3 connected)
    = Raise limit_reached
  /\ drains (calls (snd (flush_socket (layer := chatty) 5 (Some 0%nat) 3 connected)))
     = 3%nat
  /\ flushInput (layer := chatty) 5 connected
     = reconnect (layer := chatty) limit_reached
         (snd (flush_socket (layer := chatty) 5 (Some 0%nat) 3 connected)).
Proof.
  apply (flushInput_drain_limit (layer := chatty) 0%nat connected 5).
  - reflexivity.
  - exact chatty_always_pending.
  - lia.
  - exact chatty_recv_succeeds.
Defined.

(** C2, as stated, fails: on a socket that always reports pending data and
    whose receives succeed, [flushInput()] returns normally; the
    iteration-limit error raised by the drain is logged, not raised to the
    caller. *)
Lemma flushInput_swallows_limit_error :
  _sock (self connected) = Some 0%nat
  /\ fst (flush_socket (layer := chatty) 3 (Some 0%nat) 3 connected)
     = Raise limit_reached
  /\ fst (flushInput (layer := chatty) 3 connected) = Ret tt
  /\ fst (flushInput (layer := chatty) 3 connected) <> Raise limit_reached
  /\ log (snd (flushInput (layer := chatty) 3 connected))
     = [(ERROR,
         "Error while flushing the socket: flush_socket: maximum number of iterations reached"%string)].
Proof.
  split; [reflexivity|]. split; [reflexivity|]. split; [reflexivity|].
  split; [|reflexivity].
  intros H. vm_compute in H. discriminate H.
Qed.

(** C3.  For every call of [read(bufsize)]: when the receive succeeds, its
    bytes are returned, at most [bufsize] of them for a socket layer that
    keeps to the size asked for; when the receive raises a socket error, or
    any other [Exception], and when the adapter has no socket (never opened,
    or closed), the result is the empty string, a record is logged and
    nothing is raised: no [Exception] ever leaves [read]. *)
Theorem read_returns_data_or_empty
  {OS sock : Type} {layer : SocketLayer OS sock}
  (bufsize : Z) (st : state OS sock) :
  recv_bounded ->
  (forall s d o', _sock (self st) = Some s ->
     sock_recv s bufsize (os st) = (Ret d, o') ->
     fst (read bufsize st) = Ret d
     /\ Z.of_nat (List.length d) <= bufsize
     /\ log (snd (read bufsize st)) = log st)
  /\ (forall s e o', _sock (self st) = Some s ->
     sock_recv s bufsize (os st) = (Raise e, o') ->
     is_Exception e = true ->
     fst (read bufsize st) = Ret []
     /\ log (snd (read bufsize st))
        = log st ++ [(if is_socket_error e then WARNING else ERROR,
                      "Couldn't read from socket: " ++ str e)%string])
  /\ (_sock (self st) = None ->
     fst (read bufsize st) = Ret []
     /\ log (snd (read bufsize st))
        = log st ++ [(ERROR,
                      "Couldn't read from socket: 'NoneType' object has no attribute 'recv'"%string)])
  /\ (forall e, fst (read bufsize st) = Raise e -> is_Exception e = false).
Proof.
  intros Hb. split; [|split; [|split]].
  - intros s d o' Hs Hr. rewrite (read_outcome bufsize st s Hs).
    unfold recv, os_call. rewrite Hr. cbn [fst snd log].
    split; [reflexivity|]. split; [|reflexivity].
    apply (Hb s bufsize (os st) d o' Hr).
  - intros s e o' Hs Hr He. rewrite (read_outcome bufsize st s Hs).
    unfold recv, os_call. rewrite Hr, He. cbn. split; reflexivity.
  - intros Hs. rewrite (read_without_socket bufsize st Hs).
    split; reflexivity.
  - intros e. destruct (_sock (self st)) as [s|] eqn:Hs.
    + rewrite (read_outcome bufsize st s Hs).
      destruct (recv s bufsize st) as [[d|e'|] st1]; cbn [fst];
        try discriminate.
      destruct (is_Exception e') eqn:He'; cbn [fst]; [discriminate|].
      intros H. inversion H; subst. exact He'.
    + rewrite (read_without_socket bufsize st Hs). discriminate.
Qed.

Lemma chatty_recv_bounded : recv_bounded (layer := chatty).
Proof.
  intros s n o d o'. cbn. destruct (Z.ltb_spec n 0) as [Hn|Hn]; intros H;
    inversion H; subst.
  rewrite length_firstn. cbn [List.length]. lia.
Qed.

Lemma read_returns_data_or_empty_witness :
  recv_bounded (layer := chatty)
  /\ fst (read (layer := chatty) 2 connected) = Ret [x01; x02]%byte
  /\ fst (read (layer := chatty) (-1) connected) = Ret []
  /\ fst (read (layer := chatty) 2 fresh) = Ret [].
Proof.
  split; [exact chatty_recv_bounded|].
  split; [|split].
  - apply (proj1 (read_returns_data_or_empty (layer := chatty) 2 connected
                    chatty_recv_bounded) 0%nat _ 1%nat); reflexivity.
  - apply (proj1 (proj2 (read_returns_data_or_empty (layer := chatty) (-1)
                           connected chatty_recv_bounded))
             0%nat (Exc "ValueError" "negative buffersize in recv") 1%nat);
      reflexivity.
  - apply (proj1 (proj2 (proj2 (read_returns_data_or_empty (layer := chatty) 2
                                  fresh chatty_recv_bounded)))).
    reflexivity.
Defined.

(** C8.  For every payload, [write] offers to [send], at each turn, the
    payload from the count of bytes the socket layer has reported so far.
    Whatever the layer answers, [write] ends as the answers tell: when the
    count reaches the length of the payload it returns [None] with nothing
    logged; when a [send] raises a socket error it logs one warning, when it
    raises another [Exception] one error, and returns [None] all the same,
    so that its result tells nothing of the bytes sent before the error; the
    layer is left in the state of its last answer.  A [send] that reports
    the whole payload at once is the only one made.  When every [send] takes
    at least one byte of what it is offered, the layer has taken the whole
    payload, in order.  Without a socket, [write] logs the [AttributeError]
    and returns [None]; no [Exception] ever leaves [write]. *)
Theorem write_sends_whole_payload
  {OS sock : Type} {layer : SocketLayer OS sock}
  (string : list byte) (st : state OS sock) (fuel : nat) :
  (forall s, _sock (self st) = Some s ->
     (forall l o r,
        sending s string 0 (os st) l o r -> (List.length l < fuel)%nat ->
        write fuel string st
        = (match r with
           | AllSent => Ret tt
           | SendRaised e => if is_Exception e then Ret tt else Raise e
           | SendBlocked => NoReturn
           end,
           {| self := self st; os := o;
              log := log st
                     ++ match r with
                        | SendRaised (SocketError msg) =>
                            [(WARNING, "Couldn't write to socket: " ++ msg)%string]
                        | SendRaised (Exc _ msg) =>
                            [(ERROR, "Couldn't write to socket: " ++ msg)%string]
                        | _ => []
                        end;
              calls := calls st ++ map (fun c => Send s (fst c) (snd c)) l |}))
     /\ (forall e o, string <> [] -> (0 < fuel)%nat ->
         sock_send s string (os st) = (Raise e, o) ->
         is_Exception e = true ->
         write fuel string st
         = (Ret tt,
            {| self := self st; os := o;
               log := log st
                      ++ [(if is_socket_error e then WARNING else ERROR,
                           "Couldn't write to socket: " ++ str e)%string];
               calls := calls st ++ [Send s string (Raise e)] |}))
     /\ (forall n o, string <> [] -> (1 < fuel)%nat ->
         sock_send s string (os st) = (Ret n, o) ->
         Z.of_nat (List.length string) <= n ->
         write fuel string st
         = (Ret tt,
            {| self := self st; os := o; log := log st;
               calls := calls st ++ [Send s string (Ret n)] |}))
     /\ (send_progress s ->
         exists l o,
           sending s string 0 (os st) l o AllSent
           /\ accepted l = string
           /\ (List.length l <= List.length string)%nat
           /\ ((List.length string < fuel)%nat ->
               write fuel string st
               = (Ret tt,
                  {| self := self st; os := o; log := log st;
                     calls := calls st
                              ++ map (fun c => Send s (fst c) (snd c)) l |}))))
  /\ (_sock (self st) = None -> (0 < fuel)%nat ->
      fst (write fuel string st) = Ret tt
      /\ os (snd (write fuel string st)) = os st
      /\ (string <> [] ->
          log (snd (write fuel string st))
          = log st
            ++ [(ERROR,
                 "Couldn't write to socket: 'NoneType' object has no attribute 'send'"%string)]))
  /\ (forall e, fst (write fuel string st) = Raise e -> is_Exception e = false).
Proof.
  split; [|split].
  - intros s Hs.
    assert (Hany : forall l o r,
      sending s string 0 (os st) l o r -> (List.length l < fuel)%nat ->
      write fuel string st
      = (match r with
         | AllSent => Ret tt
         | SendRaised e => if is_Exception e then Ret tt else Raise e
         | SendBlocked => NoReturn
         end,
         {| self := self st; os := o;
            log := log st
                   ++ match r with
                      | SendRaised (SocketError msg) =>
                          [(WARNING, "Couldn't write to socket: " ++ msg)%string]
                      | SendRaised (Exc _ msg) =>
                          [(ERROR, "Couldn't write to socket: " ++ msg)%string]
                      | _ => []
                      end;
            calls := calls st ++ map (fun c => Send s (fst c) (snd c)) l |})).
    { intros l o r Hl Hf. rewrite write_outcome.
      rewrite (write_loop_sending s string 0 (os st) l o r Hl st fuel Hs
                 eq_refl) by (destruct r; lia).
      destruct r as [|[msg|cls msg|cls msg]|];
        cbn [is_Exception is_socket_error str logger self os log calls];
        rewrite ?app_nil_r; reflexivity. }
    split; [exact Hany|]. split; [|split].
    + intros e o Hne Hf Hsend He.
      assert (Hlen : 0 <= 0 < Z.of_nat (List.length string)).
      { destruct string; [congruence|cbn [List.length]; lia]. }
      rewrite write_outcome.
      rewrite (write_loop_sending s string 0 (os st) _ o (SendRaised e)
                 (sending_raised s string 0 (os st) e o Hlen Hsend)
                 st fuel Hs eq_refl) by (cbn [List.length]; lia).
      rewrite He. reflexivity.
    + intros n o Hne Hf Hsend Hn.
      assert (Hlen : 0 <= 0 < Z.of_nat (List.length string)).
      { destruct string; [congruence|cbn [List.length]; lia]. }
      rewrite (Hany [(string, Ret n)] o AllSent).
      * rewrite app_nil_r. reflexivity.
      * apply (sending_more s string 0 (os st) n o [] o AllSent Hlen Hsend).
        apply sending_done. lia.
      * cbn [List.length]. lia.
    + intros Hprog.
      destruct (sending_progress s string Hprog (List.length string) 0 (os st))
        as [l [o [Hl [Hacc Hlen]]]]; [lia|lia|].
      exists l, o. split; [exact Hl|]. split; [exact Hacc|].
      split; [exact Hlen|]. intros Hf.
      rewrite (Hany l o AllSent Hl) by lia. rewrite app_nil_r. reflexivity.
  - intros Hs Hf. destruct fuel as [|fuel]; [lia|].
    destruct string as [|b string].
    + split; [reflexivity|]. split; [reflexivity|]. intros H. congruence.
    + rewrite (write_logs_missing_socket fuel (b :: string) st Hs) by discriminate.
      split; [reflexivity|]. split; [reflexivity|]. intros _. reflexivity.
  - intros e. rewrite write_outcome.
    destruct (write_loop fuel string 0 st) as [[[]|e'|] st1]; cbn [fst];
      try discriminate.
    destruct (is_Exception e') eqn:He'; cbn [fst logger]; [discriminate|].
    intros H. inversion H; subst. exact He'.
Qed.

Lemma chatty_send_progress : send_progress (layer := chatty) 0%nat.
Proof.
  intros data o Hne. exists (Z.min 2 (Z.of_nat (List.length data))), o.
  split; [reflexivity|].
  destruct data as [|b data]; [congruence|]. cbn [List.length]. lia.
Qed.

Lemma write_sends_whole_payload_witness :
  write (layer := chatty) 6 [x0a; x0b; x0c]%byte connected
  = (Ret tt,
     {| self := self connected; os := os connected; log := [];
        calls := calls connected
                 ++ [Send 0%nat [x0a; x0b; x0c]%byte (Ret 2);
                     Send 0%nat [x0c]%byte (Ret 1)] |})
  /\ write (layer := unreachable) 6 [x0a; x0b]%byte connected
     = (Ret tt,
        {| self := self connected; os := os connected;
           log := [(WARNING,
                    "Couldn't write to socket: [Errno 32] Broken pipe"%string)];
           calls := calls connected
                    ++ [Send 0%nat [x0a; x0b]%byte
                          (Raise (SocketError "[Errno 32] Broken pipe"))] |})
  /\ write (layer := resetting) 6 [x0a; x0b]%byte connected
     = (Ret tt,
        {| self := self connected; os := 0%nat;
           log := [(WARNING,
                    "Couldn't write to socket: [Errno 104] Connection reset by peer"%string)];
           calls := calls connected
                    ++ [Send 0%nat [x0a; x0b]%byte (Ret 1);
                        Send 0%nat [x0b]%byte
                          (Raise (SocketError
                                    "[Errno 104] Connection reset by peer"))] |})
  /\ fst (write (layer := chatty) 6 [x0a; x0b]%byte fresh) = Ret tt.
Proof.
  split; [|split; [|split]].
  - apply (proj1 (proj1 (write_sends_whole_payload (layer := chatty)
                           [x0a; x0b; x0c]%byte connected 6) 0%nat eq_refl)
             [([x0a; x0b; x0c]%byte, Ret 2); ([x0c]%byte, Ret 1)]
             (os connected) AllSent).
    + apply (sending_more (layer := chatty) 0%nat [x0a; x0b; x0c]%byte
               0 (os connected) 2 (os connected)); [cbn; lia|reflexivity|].
      apply (sending_more (layer := chatty) 0%nat [x0a; x0b; x0c]%byte
               2 (os connected) 1 (os connected)); [cbn; lia|reflexivity|].
      apply sending_done. cbn. lia.
    + cbn. lia.
  - apply (proj1 (proj2 (proj1 (write_sends_whole_payload (layer := unreachable)
                                  [x0a; x0b]%byte connected 6) 0%nat eq_refl))
             (SocketError "[Errno 32] Broken pipe") (os connected)).
    + discriminate.
    + lia.
    + reflexivity.
    + reflexivity.
  - apply (proj1 (proj1 (write_sends_whole_payload (layer := resetting)
                           [x0a; x0b]%byte connected 6) 0%nat eq_refl)
             [([x0a; x0b]%byte, Ret 1);
              ([x0b]%byte,
               Raise (SocketError "[Errno 104] Connection reset by peer"))]
             0%nat
             (SendRaised (SocketError "[Errno 104] Connection reset by peer"))).
    + apply (sending_more (layer := resetting) 0%nat [x0a; x0b]%byte
               0 (os connected) 1 0%nat); [cbn; lia|reflexivity|].
      apply (sending_raised (layer := resetting) 0%nat [x0a; x0b]%byte
               1 0%nat); [cbn; lia|reflexivity].
    + cbn. lia.
  - apply (proj1 (proj2 (write_sends_whole_payload (layer := chatty)
                           [x0a; x0b]%byte fresh 6))).
    + reflexivity.
    + lia.
Defined.

(** C9.  For every adapter and every state of its connection, [isOpen()]
    returns [False] and changes nothing; so it does right after [open()],
    however [open()] ended. *)
Theorem isOpen_always_false
  {OS sock : Type} {layer : SocketLayer OS sock} (st : state OS sock) :
  isOpen st = (Ret false, st)
  /\ fst (isOpen (snd (open st))) = Ret false
  /\ (forall st', open st = (Ret tt, st') -> isOpen st' = (Ret false, st')).
Proof.
  split; [reflexivity|]. split; [reflexivity|].
  intros st' _. reflexivity.
Qed.

Lemma isOpen_always_false_witness :
  open (layer := chatty) fresh
  = (Ret tt, snd (open (layer := chatty) fresh))
  /\ _sock (self (snd (open (layer := chatty) fresh))) = Some 0%nat
  /\ isOpen (snd (open (layer := chatty) fresh))
     = (Ret false, snd (open (layer := chatty) fresh)).
Proof.
  split; [reflexivity|]. split; [reflexivity|].
  apply (proj2 (proj2 (isOpen_always_false (layer := chatty) fresh))).
  reflexivity.
Defined.

End SerialFacts.

(** ** Checksum engine: use on frames *)

Module CrcFrames.
Import Crc CrcFacts.

(** The character of code [z], as [chr(z)] or [struct.pack] gives it. *)
Definition chr (z : Z) : byte :=
  match Byte.of_N (Z.to_N z) with
  | Some b => b
  | None => x00%byte
  end.

Lemma ord_chr z : 0 <= z < 256 -> ord (chr z) = z.
Proof.
  intros Hz. unfold chr, ord.
  destruct (Byte.of_N (Z.to_N z)) as [b|] eqn:Hb.
  - apply Byte.to_of_N in Hb. rewrite Hb. lia.
  - apply Byte.of_N_None_iff in Hb. lia.
Qed.

Lemma ord_inj i j : ord i = ord j -> i = j.
Proof.
  unfold ord. intros H.
  assert (Hn : Byte.to_N i = Byte.to_N j) by lia.
  pose proof (Byte.of_to_N i) as Hi. pose proof (Byte.of_to_N j) as Hj.
  rewrite Hn in Hi. congruence.
Qed.

(** The accumulator of [calculate_crc] after the bytes of [data]. *)
Definition accumulator (data : list byte) : Z := fold_left crc_byte data 0xFFFF.

Lemma accumulator_word16 data : word16 (accumulator data).
Proof.
  unfold accumulator. apply fold_crc_spec. unfold word16. lia.
Qed.

Lemma calculate_crc_accumulator data :
  calculate_crc data = swap_bytes (accumulator data).
Proof. reflexivity. Qed.

Lemma word16_bytes w :
  word16 w -> 0 <= w / 256 < 256 /\ 0 <= w mod 256 < 256.
Proof.
  unfold word16. intros [H0 H1]. change (2 ^ 16) with 65536 in H1. split.
  - split; [apply Z.div_pos; lia|apply Z.div_lt_upper_bound; lia].
  - apply Z.mod_pos_bound. lia.
Qed.

Lemma swap_bytes_arith w :
  swap_bytes w = (w mod 256) * 256 + w / 256.
Proof.
  unfold swap_bytes. cbv zeta.
  rewrite Z.shiftl_mul_pow2, Z.shiftr_div_pow2 by lia. reflexivity.
Qed.

(** Two swaps, in terms of the low byte and of what lies above it. *)
Lemma swap_bytes_twice (w : Z) :
  swap_bytes (swap_bytes w)
  = (w / 256) mod 256 * 256 + (w mod 256 + w / 256 / 256).
Proof.
  rewrite !swap_bytes_arith.
  replace ((w mod 256 * 256 + w / 256) mod 256) with ((w / 256) mod 256)
    by (rewrite Z.add_comm, Z.mod_add by lia; reflexivity).
  replace ((w mod 256 * 256 + w / 256) / 256) with (w mod 256 + w / 256 / 256)
    by (rewrite (Z.add_comm (w mod 256 * 256) (w / 256)), Z.div_add by lia; lia).
  reflexivity.
Qed.

Lemma swap_bytes_twice_word16 (w : Z) :
  0 <= w < 65536 -> swap_bytes (swap_bytes w) = w.
Proof.
  intros Hw. rewrite swap_bytes_twice.
  assert (0 <= w / 256 < 256).
  { split; [apply Z.div_pos; lia|apply Z.div_lt_upper_bound; lia]. }
  rewrite (Z.mod_small (w / 256) 256), (Z.div_small (w / 256) 256) by lia.
  pose proof (Z.div_mod w 256 ltac:(lia)). lia.
Qed.

(** X1. [swap_bytes] undoes itself on the 16-bit words, and on no other
    integer. *)
Theorem swap_bytes_involutive_iff (w : Z) :
  swap_bytes (swap_bytes w) = w <-> 0 <= w < 65536.
Proof.
  rewrite swap_bytes_twice.
  pose proof (Z.mod_pos_bound w 256 ltac:(lia)) as Hlo.
  pose proof (Z.div_mod w 256 ltac:(lia)) as Hw.
  pose proof (Z.mod_pos_bound (w / 256) 256 ltac:(lia)) as Hhl.
  pose proof (Z.div_mod (w / 256) 256 ltac:(lia)) as Hh.
  split; intros H.
  - assert (w / 256 / 256 = 0) by lia. lia.
  - assert (0 <= w / 256 < 256).
    { split; [apply Z.div_pos; lia|apply Z.div_lt_upper_bound; lia]. }
    rewrite (Z.mod_small (w / 256) 256), (Z.div_small (w / 256) 256) by lia.
    lia.
Qed.

Lemma swap_bytes_involutive_iff_witness :
  swap_bytes (swap_bytes 0x12AB) = 0x12AB
  /\ swap_bytes (swap_bytes 0x10000) <> 0x10000.
Proof.
  split.
  - apply (proj2 (swap_bytes_involutive_iff 0x12AB)). lia.
  - intros H. apply (proj1 (swap_bytes_involutive_iff 0x10000)) in H. lia.
Defined.

Lemma swap_bytes_inj v w :
  word16 v -> word16 w -> swap_bytes v = swap_bytes w -> v = w.
Proof.
  unfold word16. change (2 ^ 16) with 65536. intros Hv Hw H.
  rewrite <- (swap_bytes_twice_word16 v Hv).
  rewrite <- (swap_bytes_twice_word16 w Hw).
  rewrite H. reflexivity.
Qed.

(** Eight shifts of a word whose low byte is zero move the high byte down. *)
Lemma shifts_of_high_byte x :
  0 <= x -> x mod 2 ^ 8 = 0 -> Nat.iter 8 crc_shift x = Z.shiftr x 8.
Proof.
  intros Hx Hlow.
  assert (Hbit : forall j, 0 <= j < 8 -> Z.testbit x j = false).
  { intros j Hj. rewrite <- (Z.mod_pow2_bits_low x 8 j) by lia.
    rewrite Hlow. apply Z.bits_0. }
  assert (Hiter : forall j, (j <= 8)%nat ->
                    Nat.iter j crc_shift x = Z.shiftr x (Z.of_nat j)).
  { induction j as [|j IH]; intros Hj.
    - cbn. symmetry. apply Z.shiftr_0_r.
    - rewrite Nat.iter_succ, IH by lia. unfold crc_shift. cbv zeta.
      rewrite land_1_testbit, Z.shiftr_spec by lia.
      rewrite Hbit by lia. cbn [negb].
      rewrite Z.shiftr_shiftr by lia. f_equal. lia. }
  apply (Hiter 8%nat). lia.
Qed.

(** Feeding the low byte of the accumulator leaves its high byte. *)
Lemma crc_byte_low acc :
  word16 acc -> crc_byte acc (chr (acc mod 256)) = acc / 256.
Proof.
  intros Hw. destruct (word16_bytes acc Hw) as [Hhi Hlo].
  unfold crc_byte. cbv zeta. rewrite ord_chr by exact Hlo.
  rewrite (lxor_low_byte acc (acc mod 256) Hlo), Z.lxor_nilpotent, Z.add_0_r.
  rewrite shifts_of_high_byte.
  - rewrite Z.shiftr_div_pow2 by lia. change (2 ^ 8) with 256.
    rewrite Z.mul_comm. apply Z.div_mul. lia.
  - lia.
  - change (2 ^ 8) with 256. rewrite Z.mul_comm. apply Z.mod_mul. lia.
Qed.

(** Feeding a byte-sized accumulator to itself leaves zero. *)
Lemma crc_byte_self b : 0 <= b < 256 -> crc_byte b (chr b) = 0.
Proof.
  intros Hb. unfold crc_byte. cbv zeta.
  rewrite ord_chr by exact Hb. rewrite Z.lxor_nilpotent. reflexivity.
Qed.

(** X2. A frame followed by its checksum, high byte of the returned value
    first (the order in which [struct.pack(">H", crc)] writes it), has
    checksum zero. *)
Theorem calculate_crc_of_checked_frame (data : list byte) :
  let crc := calculate_crc data in
  calculate_crc (data ++ [chr (crc / 256); chr (crc mod 256)]) = 0.
Proof.
  cbv zeta. rewrite (calculate_crc_accumulator data).
  pose proof (accumulator_word16 data) as Hw.
  destruct (word16_bytes _ Hw) as [Hhi Hlo].
  rewrite swap_bytes_arith.
  replace ((accumulator data mod 256 * 256 + accumulator data / 256) / 256)
    with (accumulator data mod 256)
    by (rewrite Z.add_comm, Z.div_add, Z.div_small by lia; reflexivity).
  replace ((accumulator data mod 256 * 256 + accumulator data / 256) mod 256)
    with (accumulator data / 256)
    by (rewrite Z.add_comm, Z.mod_add, Z.mod_small by lia; reflexivity).
  rewrite calculate_crc_accumulator. unfold accumulator at 1.
  rewrite fold_left_app. cbn [fold_left]. fold (accumulator data).
  rewrite (crc_byte_low _ Hw), (crc_byte_self _ Hhi). reflexivity.
Qed.

(** The shift step can be undone: the bit shifted out shows in bit 15. *)
Definition crc_unshift (y : Z) : Z :=
  if Z.testbit y 15 then 2 * Z.lxor y 0xA001 + 1 else 2 * y.

Lemma crc_unshift_shift x : word16 x -> crc_unshift (crc_shift x) = x.
Proof.
  intros Hw. pose proof (word16_shiftr1 x Hw) as [Hs0 Hs1].
  assert (Hs15 : Z.testbit (Z.shiftr x 1) 15 = false).
  { apply Z.bits_above_log2; [exact Hs0|].
    destruct (Z.eq_dec (Z.shiftr x 1) 0) as [->|Hnz]; [cbn; lia|].
    apply Z.log2_lt_pow2; [lia|].
    destruct Hw as [Hx0 Hx1]. rewrite Z.shiftr_div_pow2 by lia.
    apply Z.div_lt_upper_bound; [lia|].
    change (2 ^ 1 * 2 ^ 15) with (2 ^ 16). exact Hx1. }
  pose proof (Z.bit0_mod x) as Hb0.
  pose proof (Z.div_mod x 2 ltac:(lia)) as Hx.
  rewrite Z.shiftr_div_pow2 in * by lia. change (2 ^ 1) with 2 in *.
  unfold crc_unshift, crc_shift. cbv zeta. rewrite land_1_testbit.
  rewrite Z.shiftr_div_pow2 by lia. change (2 ^ 1) with 2.
  destruct (Z.testbit x 0); cbn [negb Z.b2z] in *.
  - rewrite Z.lxor_spec, Hs15. change (Z.testbit 40961 15) with true.
    cbn [xorb]. rewrite Z.lxor_assoc, Z.lxor_nilpotent, Z.lxor_0_r. lia.
  - rewrite Hs15. lia.
Qed.

Lemma crc_shift_inj x y :
  word16 x -> word16 y -> crc_shift x = crc_shift y -> x = y.
Proof.
  intros Hx Hy H. rewrite <- (crc_unshift_shift x Hx), <- (crc_unshift_shift y Hy).
  rewrite H. reflexivity.
Qed.

Lemma iter_shift_inj n x y :
  word16 x -> word16 y ->
  Nat.iter n crc_shift x = Nat.iter n crc_shift y -> x = y.
Proof.
  intros Hx Hy. induction n as [|n IH]; [trivial|].
  rewrite !Nat.iter_succ. intros H. apply IH.
  apply crc_shift_inj; [apply iter_shift_spec, Hx|apply iter_shift_spec, Hy|exact H].
Qed.

Lemma word16_lxor_ord acc i : word16 acc -> word16 (Z.lxor acc (ord i)).
Proof.
  intros H. apply word16_lxor; [exact H|].
  pose proof (ord_range i). unfold word16. lia.
Qed.

(** The step for one byte is one-to-one in the accumulator and in the byte. *)
Lemma crc_byte_inj acc acc' i i' :
  word16 acc -> word16 acc' ->
  crc_byte acc i = crc_byte acc' i' -> Z.lxor acc (ord i) = Z.lxor acc' (ord i').
Proof.
  intros Ha Ha'. unfold crc_byte. cbv zeta.
  apply iter_shift_inj; apply word16_lxor_ord; assumption.
Qed.

Lemma fold_crc_byte_inj data acc acc' :
  word16 acc -> word16 acc' ->
  fold_left crc_byte data acc = fold_left crc_byte data acc' -> acc = acc'.
Proof.
  revert acc acc'. induction data as [|i data IH]; intros acc acc' Ha Ha' H.
  - exact H.
  - cbn [fold_left] in H.
    apply IH in H; [|apply crc_byte_spec, Ha|apply crc_byte_spec, Ha'].
    apply crc_byte_inj in H; [|exact Ha|exact Ha'].
    apply (f_equal (fun z => Z.lxor z (ord i))) in H.
    rewrite !Z.lxor_assoc, Z.lxor_nilpotent, !Z.lxor_0_r in H. exact H.
Qed.

(** X3. Two frames that differ in one byte only have different checksums:
    the corruption of a single byte never goes unnoticed. *)
Theorem calculate_crc_detects_one_byte (pre post : list byte) (b b' : byte) :
  b <> b' ->
  calculate_crc (pre ++ b :: post) <> calculate_crc (pre ++ b' :: post).
Proof.
  intros Hne H. rewrite !calculate_crc_accumulator in H.
  apply swap_bytes_inj in H; try apply accumulator_word16.
  unfold accumulator in H. rewrite !fold_left_app in H. cbn [fold_left] in H.
  pose proof (accumulator_word16 pre) as Hw. fold (accumulator pre) in H.
  apply fold_crc_byte_inj in H; try (apply crc_byte_spec; exact Hw).
  apply crc_byte_inj in H; try exact Hw.
  apply Hne, ord_inj.
  apply (f_equal (Z.lxor (accumulator pre))) in H.
  rewrite <- !Z.lxor_assoc, Z.lxor_nilpotent, !Z.lxor_0_l in H. exact H.
Qed.

Lemma calculate_crc_detects_one_byte_witness :
  calculate_crc ([x01; x03] ++ x00 :: [x0a])%byte
  <> calculate_crc ([x01; x03] ++ x80 :: [x0a])%byte.
Proof.
  apply (calculate_crc_detects_one_byte [x01; x03]%byte [x0a]%byte x00 x80)%byte.
  discriminate.
Defined.

End CrcFrames.

(** ** Inter-character delay: bounds *)

Module InterCharBounds.
Import Py InterChar.

(** The delay lies between the fixed value and eleven seconds. *)
Definition in_bounds (rate : Z) : bool :=
  match calculate_rtu_inter_char rate with
  | Ret f => ((0.0005 <=? f) && (f <=? 11))%float
  | _ => false
  end.

(** [p] on the [n] integers from [lo] up. *)
Fixpoint all_from (p : Z -> bool) (n : nat) (lo : Z) : bool :=
  match n with
  | O => true
  | S n' => p lo && all_from p n' (lo + 1)
  end.

Lemma all_from_spec p n :
  forall lo z, all_from p n lo = true -> lo <= z < lo + Z.of_nat n -> p z = true.
Proof.
  induction n as [|n IH]; intros lo z H Hz.
  - lia.
  - cbn [all_from] in H. apply andb_true_iff in H. destruct H as [H1 H2].
    destruct (Z.eq_dec z lo) as [->|Hne]; [exact H1|].
    apply (IH (lo + 1)); [exact H2|lia].
Qed.

Lemma in_bounds_low_rates : all_from in_bounds (Z.to_nat 19200) 1 = true.
Proof. vm_compute. reflexivity. Qed.

(** X6. For every positive transmission rate the function returns a delay,
    and the delay is at least 0.0005 s and at most 11 s: the formula branch
    never goes below the fixed value of the fast rates. *)
Theorem calculate_rtu_inter_char_bounds (rate : Z) :
  0 < rate ->
  exists f, calculate_rtu_inter_char rate = Ret f
            /\ (0.0005 <=? f)%float = true /\ (f <=? 11)%float = true.
Proof.
  intros Hr.
  assert (Hb : in_bounds rate = true).
  { destruct (Z.leb_spec rate 19200) as [Hle|Hgt].
    - apply (all_from_spec in_bounds (Z.to_nat 19200) 1 rate in_bounds_low_rates).
      lia.
    - unfold in_bounds, calculate_rtu_inter_char.
      destruct (Z.leb_spec rate 19200); [lia|reflexivity]. }
  unfold in_bounds in Hb.
  destruct (calculate_rtu_inter_char rate) as [f| |]; try discriminate.
  apply andb_true_iff in Hb. exists f. tauto.
Qed.

Lemma calculate_rtu_inter_char_bounds_witness :
  exists f, calculate_rtu_inter_char 300 = Ret f
            /\ (0.0005 <=? f)%float = true /\ (f <=? 11)%float = true.
Proof. apply (calculate_rtu_inter_char_bounds 300). lia. Defined.

End InterCharBounds.

(** ** [get_log_buffer] *)

Module LogBufferFacts.
Import LogBuffer.
Local Open Scope string_scope.

Example log_buffer_frame :
  get_log_buffer "-> " [x01; x03; xff]%byte = "-> 1-3-255".
Proof. reflexivity. Qed.

Lemma append_assoc (a b c : string) : (a ++ b) ++ c = a ++ (b ++ c).
Proof. induction a as [|x a IH]; cbn; [reflexivity|]. rewrite IH. reflexivity. Qed.

Lemma append_nil_r (a : string) : a ++ "" = a.
Proof. induction a as [|x a IH]; cbn; [reflexivity|]. rewrite IH. reflexivity. Qed.

Lemma append_length (a b : string) :
  String.length (a ++ b) = (String.length a + String.length b)%nat.
Proof. induction a as [|x a IH]; cbn; [reflexivity|]. rewrite IH. reflexivity. Qed.

Lemma all_but_last_snoc (a : string) (c : ascii) :
  all_but_last (a ++ String c "") = a.
Proof.
  induction a as [|x a IH]; [reflexivity|].
  cbn [append all_but_last]. rewrite IH.
  destruct a; reflexivity.
Qed.

Lemma all_but_last_length (a : string) :
  String.length (all_but_last a) = Nat.pred (String.length a).
Proof.
  induction a as [|x a IH]; [reflexivity|].
  cbn [all_but_last]. destruct a as [|y a]; [reflexivity|].
  cbn [String.length] in *. rewrite IH. reflexivity.
Qed.

(** The loop appends each number followed by a dash. *)
Lemma fold_dashes buff : forall log,
  fold_left (fun log i => log ++ (str_ord i ++ "-")) buff log
  = log ++ String.concat "" (map (fun i => str_ord i ++ "-") buff).
Proof.
  induction buff as [|i buff IH]; intros log; cbn [fold_left map].
  - cbn. symmetry. apply append_nil_r.
  - rewrite IH, append_assoc. f_equal.
    destruct buff as [|j buff]; cbn [map String.concat].
    + rewrite append_nil_r. reflexivity.
    + reflexivity.
Qed.

Lemma dashes_joined i buff :
  String.concat "" (map (fun i => str_ord i ++ "-") (i :: buff))
  = String.concat "-" (map str_ord (i :: buff)) ++ "-".
Proof.
  revert i. induction buff as [|j buff IH]; intros i.
  - reflexivity.
  - change (String.concat "" (map (fun i => str_ord i ++ "-") (i :: j :: buff)))
      with ((str_ord i ++ "-")
              ++ String.concat "" (map (fun i => str_ord i ++ "-") (j :: buff))).
    rewrite IH.
    change (String.concat "-" (map str_ord (i :: j :: buff)))
      with (str_ord i ++ "-" ++ String.concat "-" (map str_ord (j :: buff))).
    rewrite !append_assoc. reflexivity.
Qed.

Lemma get_log_buffer_cons (prefix : string) (i : byte) (buff : list byte) :
  get_log_buffer prefix (i :: buff)
  = prefix ++ String.concat "-" (map str_ord (i :: buff)).
Proof.
  unfold get_log_buffer. cbv zeta.
  rewrite fold_dashes, dashes_joined, <- append_assoc.
  apply all_but_last_snoc.
Qed.

Lemma get_log_buffer_nil_length (prefix : string) :
  String.length (get_log_buffer prefix []) = Nat.pred (String.length prefix).
Proof. apply all_but_last_length. Qed.

(** X4. For a non-empty buffer, [get_log_buffer] is the prefix followed by
    the codes of the bytes, in decimal, joined by dashes, with no dash at
    the end.  For the empty buffer nothing is appended and the slice takes
    away the last character of the prefix itself. *)
Theorem get_log_buffer_joined (prefix : string) (buff : list byte) :
  (buff <> [] ->
   get_log_buffer prefix buff
   = prefix ++ String.concat "-" (map str_ord buff))
  /\ (buff = [] ->
      get_log_buffer prefix buff = all_but_last prefix
      /\ String.length (get_log_buffer prefix buff)
         = Nat.pred (String.length prefix)).
Proof.
  split.
  - destruct buff as [|i buff]; [congruence|]. intros _.
    apply get_log_buffer_cons.
  - intros ->. split; [reflexivity|]. apply get_log_buffer_nil_length.
Qed.

Lemma get_log_buffer_joined_witness :
  get_log_buffer "rx: " [x0a; xff]%byte
    = "rx: " ++ String.concat "-" (map str_ord [x0a; xff]%byte)
  /\ get_log_buffer "rx: " [] = "rx:".
Proof.
  split.
  - apply (proj1 (get_log_buffer_joined "rx: " [x0a; xff]%byte)). discriminate.
  - apply (proj2 (get_log_buffer_joined "rx: " [])). reflexivity.
Defined.

(** *** The line determines the buffer *)

Definition dash : ascii := "-"%char.

Fixpoint no_dash (s : string) : bool :=
  match s with
  | EmptyString => true
  | String c rest => negb (Ascii.eqb c dash) && no_dash rest
  end.

Lemma str_ord_no_dash i : no_dash (str_ord i) = true.
Proof. destruct i; reflexivity. Qed.

Lemma str_ord_length i : (1 <= String.length (str_ord i))%nat.
Proof. destruct i; cbn; lia. Qed.

(** Reading the number back. *)
Definition ord_of_str (s : string) : byte :=
  match DecimalString.NilZero.int_of_string s with
  | Some d => CrcFrames.chr (Z.of_int d)
  | None => x00%byte
  end.

Lemma ord_of_str_ord i : ord_of_str (str_ord i) = i.
Proof. destruct i; reflexivity. Qed.

Lemma str_ord_inj i j : str_ord i = str_ord j -> i = j.
Proof.
  intros H. rewrite <- (ord_of_str_ord i), <- (ord_of_str_ord j), H.
  reflexivity.
Qed.

Lemma map_str_ord_inj b1 : forall b2, map str_ord b1 = map str_ord b2 -> b1 = b2.
Proof.
  induction b1 as [|i b1 IH]; intros [|j b2] H; try discriminate.
  - reflexivity.
  - cbn [map] in H. inversion H as [[Hi Hr]].
    apply str_ord_inj in Hi. apply IH in Hr. congruence.
Qed.

Lemma append_inv_head (p a b : string) : p ++ a = p ++ b -> a = b.
Proof.
  induction p as [|x p IH]; cbn; intros H; [exact H|].
  inversion H. apply IH. assumption.
Qed.

Lemma no_dash_before_dash (a r : string) : no_dash (a ++ String dash r) = false.
Proof.
  induction a as [|x a IH]; cbn; [reflexivity|].
  rewrite IH. apply andb_false_r.
Qed.

(** Two dashless fields, each closed by a dash, start equal strings only
    when they are the same field. *)
Lemma split_at_dash (a : string) : forall b r r',
  no_dash a = true -> no_dash b = true ->
  a ++ String dash r = b ++ String dash r' -> a = b /\ r = r'.
Proof.
  induction a as [|x a IH]; intros [|y b] r r' Ha Hb H; cbn in *.
  - inversion H. split; reflexivity.
  - inversion H; subst y. cbn in Hb. discriminate.
  - inversion H; subst x. cbn in Ha. discriminate.
  - inversion H; subst y.
    apply andb_true_iff in Ha, Hb.
    destruct (IH b r r' (proj2 Ha) (proj2 Hb)) as [-> ->]; [assumption|].
    split; reflexivity.
Qed.

Lemma concat_cons2 (a b : string) (l : list string) :
  String.concat "-" (a :: b :: l) = a ++ String dash (String.concat "-" (b :: l)).
Proof. reflexivity. Qed.

Lemma concat_dash_inj (l1 : list string) : forall l2,
  Forall (fun a => no_dash a = true) l1 ->
  Forall (fun a => no_dash a = true) l2 ->
  l1 <> [] -> l2 <> [] ->
  String.concat "-" l1 = String.concat "-" l2 -> l1 = l2.
Proof.
  induction l1 as [|a l1 IH]; intros l2 H1 H2 N1 N2 H; [congruence|].
  destruct l2 as [|b l2]; [congruence|].
  inversion H1 as [|? ? Ha H1']; subst. inversion H2 as [|? ? Hb H2']; subst.
  destruct l1 as [|a2 l1], l2 as [|b2 l2].
  - cbn in H. congruence.
  - rewrite concat_cons2 in H. cbn [String.concat] in H.
    rewrite H, no_dash_before_dash in Ha. discriminate.
  - rewrite concat_cons2 in H. cbn [String.concat] in H.
    rewrite <- H, no_dash_before_dash in Hb. discriminate.
  - rewrite !concat_cons2 in H.
    destruct (split_at_dash a b _ _ Ha Hb H) as [-> Hr].
    f_equal. apply IH; try assumption; discriminate.
Qed.

Lemma joined_length i buff :
  (1 <= String.length (String.concat "-" (map str_ord (i :: buff))))%nat.
Proof.
  pose proof (str_ord_length i) as Hi.
  destruct buff as [|j buff]; cbn [map].
  - exact Hi.
  - rewrite concat_cons2, append_length. lia.
Qed.

(** X5. For a given prefix, two buffers that give the same line are the
    same buffer. *)
Theorem get_log_buffer_inj (prefix : string) (b1 b2 : list byte) :
  get_log_buffer prefix b1 = get_log_buffer prefix b2 -> b1 = b2.
Proof.
  assert (Hshort : forall i b,
             get_log_buffer prefix [] <> get_log_buffer prefix (i :: b)).
  { intros i b H. apply (f_equal String.length) in H.
    rewrite get_log_buffer_cons, get_log_buffer_nil_length in H.
    rewrite append_length in H. pose proof (joined_length i b). lia. }
  destruct b1 as [|i b1], b2 as [|j b2]; intros H.
  - reflexivity.
  - exfalso. apply (Hshort j b2). exact H.
  - exfalso. apply (Hshort i b1). symmetry. exact H.
  - rewrite !get_log_buffer_cons in H.
    apply append_inv_head in H. apply map_str_ord_inj.
    apply concat_dash_inj; try (cbn [map]; discriminate); try exact H;
      apply Forall_forall; intros a Ha; apply in_map_iff in Ha;
      destruct Ha as [k [<- _]]; apply str_ord_no_dash.
Qed.

Lemma get_log_buffer_inj_witness :
  get_log_buffer "tx: " [x01; x17]%byte <> get_log_buffer "tx: " [x0b; x07]%byte.
Proof.
  intros H.
  apply (get_log_buffer_inj "tx: " [x01; x17]%byte [x0b; x07]%byte) in H.
  discriminate H.
Defined.

End LogBufferFacts.

(** ** [threadsafe_function] under concurrent callers *)

Module GuardedFacts.
Import Py Guarded.

Section Callers.
Context {U L R : Type}.
Variable fcn : L -> U -> (L + ended R) * U.

Lemma nth_error_set_nth_same {A} (l : list A) : forall i x c,
  nth_error l i = Some c -> nth_error (set_nth i x l) i = Some x.
Proof.
  induction l as [|h t IH]; intros [|i] x c H; cbn in *; try discriminate.
  - reflexivity.
  - apply (IH i x c H).
Qed.

Lemma nth_error_set_nth_other {A} (l : list A) : forall i j x,
  j <> i -> nth_error (set_nth i x l) j = nth_error l j.
Proof.
  induction l as [|h t IH]; intros [|i] [|j] x H; cbn; try reflexivity.
  - congruence.
  - apply IH. congruence.
Qed.

Lemma length_set_nth {A} (l : list A) : forall i x,
  List.length (set_nth i x l) = List.length l.
Proof.
  induction l as [|h t IH]; intros [|i] x; cbn; try reflexivity.
  rewrite IH. reflexivity.
Qed.

(** How far the caller holding the lock has come, [u_mid] being the shared
    state when it took the lock. *)
Definition progress (u_mid u : U) (c : caller L R) : Prop :=
  match c with
  | InFcn args local =>
      forall r u', runs fcn local u r u' -> runs fcn args u_mid r u'
  | AtRelease args r => runs fcn args u_mid r u
  | _ => False
  end.

Definition args_of (c : caller L R) : L :=
  match c with
  | AtAcquire a | InFcn a _ | AtRelease a _ | Done a _ => a
  end.

Definition is_done (c : caller L R) : bool :=
  match c with Done _ _ => true | _ => false end.

Definition inv (u0 : U) (argss : list L) (s : system U L R) : Prop :=
  map args_of (callers s) = argss
  /\ (forall a r, In (a, r) (history s) -> In a argss)
  /\ List.length (history s) = List.length (filter is_done (callers s))
  /\ (forall i a r, nth_error (callers s) i = Some (Done a r) ->
        In (a, r) (history s))
  /\ exists u_mid,
      serial fcn u0 (history s) u_mid
      /\ if locked s
         then exists i c,
             nth_error (callers s) i = Some c /\ holds c = true
             /\ (forall j c', nth_error (callers s) j = Some c' ->
                   holds c' = true -> j = i)
             /\ progress u_mid (user s) c
         else user s = u_mid
              /\ forall j c', nth_error (callers s) j = Some c' ->
                   holds c' = false.

Lemma map_args_set_nth cs : forall i c c',
  nth_error cs i = Some c -> args_of c' = args_of c ->
  map args_of (set_nth i c' cs) = map args_of cs.
Proof.
  induction cs as [|h t IH]; intros [|i] c c' H Ha; cbn in *; try discriminate.
  - inversion H; subst. rewrite Ha. reflexivity.
  - rewrite (IH i c c' H Ha). reflexivity.
Qed.

Lemma done_set_nth cs : forall i c c',
  nth_error cs i = Some c -> is_done c = false ->
  List.length (filter is_done (set_nth i c' cs))
  = ((if is_done c' then 1 else 0) + List.length (filter is_done cs))%nat.
Proof.
  induction cs as [|h t IH]; intros [|i] c c' H Hc; cbn in H; try discriminate.
  - inversion H; subst. cbn [set_nth filter]. rewrite Hc.
    destruct (is_done c'); reflexivity.
  - cbn [set_nth filter]. destruct (is_done h); cbn [List.length];
      rewrite (IH i c c' H Hc); lia.
Qed.

Lemma in_args cs i c : nth_error cs i = Some c -> In (args_of c) (map args_of cs).
Proof. intros H. apply in_map. apply (nth_error_In cs i H). Qed.

Lemma callers_inv_initial u0 argss : inv u0 argss (initial u0 argss).
Proof.
  unfold inv, initial. cbn. split; [|split; [|split; [|split]]].
  - rewrite map_map. cbn. apply map_id.
  - intros a r [].
  - induction argss as [|a argss IH]; cbn; [reflexivity|exact IH].
  - intros i a r H. apply nth_error_In in H. apply in_map_iff in H.
    destruct H as [x [Hx _]]. discriminate.
  - exists u0. split; [constructor|]. split; [reflexivity|].
    intros j c' H. apply nth_error_In in H. apply in_map_iff in H.
    destruct H as [x [<- _]]. reflexivity.
Qed.

Lemma callers_inv_step u0 argss k s : inv u0 argss s -> inv u0 argss (step fcn k s).
Proof.
  intros (Hargs & Hhist & Hlen & Hdone & u_mid & Hser & Hlock).
  unfold step. destruct (nth_error (callers s) k) as [c|] eqn:Hk;
    [|repeat split; try assumption; exists u_mid; split; assumption].
  destruct c as [a|a l|a r|a r].
  - (* line 25 *)
    destruct (locked s) eqn:Hl.
    + unfold inv. rewrite Hl. repeat split; try assumption.
      exists u_mid. split; assumption.
    + destruct Hlock as [Hu Hfree]. unfold inv. cbn.
      split; [rewrite (map_args_set_nth _ k _ _ Hk); [exact Hargs|reflexivity]|].
      split; [exact Hhist|].
      split; [rewrite (done_set_nth _ k _ _ Hk); [exact Hlen|reflexivity]|].
      split.
      { intros i a' r' Hi. destruct (Nat.eq_dec i k) as [->|Hne].
        - rewrite (nth_error_set_nth_same _ k _ _ Hk) in Hi. discriminate.
        - rewrite nth_error_set_nth_other in Hi by exact Hne.
          apply (Hdone i a' r' Hi). }
      exists u_mid. split; [exact Hser|].
      exists k, (InFcn a a).
      split; [apply (nth_error_set_nth_same _ k _ _ Hk)|].
      split; [reflexivity|]. split.
      * intros j c' Hj Hh. destruct (Nat.eq_dec j k) as [->|Hne]; [reflexivity|].
        rewrite nth_error_set_nth_other in Hj by exact Hne.
        rewrite (Hfree j c' Hj) in Hh. discriminate.
      * cbn. rewrite Hu. trivial.
  - (* line 27 *)
    destruct (locked s) eqn:Hl;
      [|destruct Hlock as [_ Hfree]; specialize (Hfree k _ Hk); discriminate].
    destruct Hlock as (i & c & Hi & Hc & Huniq & Hprog).
    assert (i = k) by (symmetry; apply (Huniq k _ Hk); reflexivity). subst i.
    rewrite Hk in Hi. inversion Hi; subst c. cbn in Hprog.
    destruct (fcn l (user s)) as [[l'|r] u1] eqn:Hf; unfold inv; cbn; rewrite ?Hl.
    + split; [rewrite (map_args_set_nth _ k _ _ Hk); [exact Hargs|reflexivity]|].
      split; [exact Hhist|].
      split; [rewrite (done_set_nth _ k _ _ Hk); [exact Hlen|reflexivity]|].
      split.
      { intros i a' r' Hi'. destruct (Nat.eq_dec i k) as [->|Hne].
        - rewrite (nth_error_set_nth_same _ k _ _ Hk) in Hi'. discriminate.
        - rewrite nth_error_set_nth_other in Hi' by exact Hne.
          apply (Hdone i a' r' Hi'). }
      exists u_mid. split; [exact Hser|].
      exists k, (InFcn a l').
      split; [apply (nth_error_set_nth_same _ k _ _ Hk)|].
      split; [reflexivity|]. split.
      * intros j c' Hj Hh. destruct (Nat.eq_dec j k) as [->|Hne]; [reflexivity|].
        rewrite nth_error_set_nth_other in Hj by exact Hne.
        apply (Huniq j c' Hj Hh).
      * cbn. intros r u' Hr. apply Hprog. eapply runs_step; eassumption.
    + split; [rewrite (map_args_set_nth _ k _ _ Hk); [exact Hargs|reflexivity]|].
      split; [exact Hhist|].
      split; [rewrite (done_set_nth _ k _ _ Hk); [exact Hlen|reflexivity]|].
      split.
      { intros i a' r' Hi'. destruct (Nat.eq_dec i k) as [->|Hne].
        - rewrite (nth_error_set_nth_same _ k _ _ Hk) in Hi'. discriminate.
        - rewrite nth_error_set_nth_other in Hi' by exact Hne.
          apply (Hdone i a' r' Hi'). }
      exists u_mid. split; [exact Hser|].
      exists k, (AtRelease a r).
      split; [apply (nth_error_set_nth_same _ k _ _ Hk)|].
      split; [reflexivity|]. split.
      * intros j c' Hj Hh. destruct (Nat.eq_dec j k) as [->|Hne]; [reflexivity|].
        rewrite nth_error_set_nth_other in Hj by exact Hne.
        apply (Huniq j c' Hj Hh).
      * cbn. apply Hprog. apply runs_end. exact Hf.
  - (* line 31 *)
    destruct (locked s) eqn:Hl;
      [|destruct Hlock as [_ Hfree]; specialize (Hfree k _ Hk); discriminate].
    destruct Hlock as (i & c & Hi & Hc & Huniq & Hprog).
    assert (i = k) by (symmetry; apply (Huniq k _ Hk); reflexivity). subst i.
    rewrite Hk in Hi. inversion Hi; subst c. cbn in Hprog.
    unfold inv. cbn.
    split; [rewrite (map_args_set_nth _ k _ _ Hk); [exact Hargs|reflexivity]|].
    split.
    { intros a' r' Hin. apply in_app_iff in Hin. destruct Hin as [Hin|[Heq|[]]].
      - apply (Hhist a' r' Hin).
      - inversion Heq; subst a' r'. rewrite <- Hargs. apply (in_args _ k _ Hk). }
    split.
    { rewrite length_app, (done_set_nth _ k _ _ Hk) by reflexivity.
      cbn. lia. }
    split.
    { intros i a' r' Hi'. apply in_app_iff.
      destruct (Nat.eq_dec i k) as [->|Hne].
      - rewrite (nth_error_set_nth_same _ k _ _ Hk) in Hi'.
        inversion Hi'; subst. right. left. reflexivity.
      - rewrite nth_error_set_nth_other in Hi' by exact Hne.
        left. apply (Hdone i a' r' Hi'). }
    exists (user s). split; [econstructor; eassumption|].
    split; [reflexivity|].
    intros j c' Hj. destruct (Nat.eq_dec j k) as [->|Hne].
    + rewrite (nth_error_set_nth_same _ k _ _ Hk) in Hj.
      inversion Hj. reflexivity.
    + rewrite nth_error_set_nth_other in Hj by exact Hne.
      destruct (holds c') eqn:Hh; [|reflexivity].
      exfalso. apply Hne. apply (Huniq j c' Hj Hh).
  - (* line 32 *)
    repeat split; try assumption. exists u_mid. split; assumption.
Qed.

Lemma callers_inv_run u0 argss sched : forall s,
  inv u0 argss s -> inv u0 argss (run fcn sched s).
Proof.
  induction sched as [|k sched IH]; intros s H; cbn.
  - exact H.
  - apply IH, callers_inv_step, H.
Qed.

End Callers.

(** X7. Whatever the schedule, at most one caller is between
    [lock.acquire()] and [lock.release()], and then the lock is held: two
    callers are never inside the decorated function at once. *)
Theorem threadsafe_function_excludes
  {U L R : Type} (fcn : L -> U -> (L + ended R) * U)
  (u0 : U) (argss : list L) (sched : list nat) (i j : nat)
  (ci cj : caller L R) :
  let s := run fcn sched (initial u0 argss) in
  nth_error (callers s) i = Some ci -> holds ci = true ->
  nth_error (callers s) j = Some cj -> holds cj = true ->
  i = j /\ locked s = true.
Proof.
  intros s Hi Hci Hj Hcj.
  destruct (callers_inv_run fcn u0 argss sched _ (callers_inv_initial fcn u0 argss))
    as (_ & _ & _ & _ & u_mid & _ & Hlock).
  fold s in Hlock. destruct (locked s).
  - destruct Hlock as (k & c & _ & _ & Huniq & _).
    rewrite (Huniq i ci Hi Hci), (Huniq j cj Hj Hcj). split; reflexivity.
  - destruct Hlock as [_ Hfree]. rewrite (Hfree i ci Hi) in Hci. discriminate.
Qed.

(** X8. Whatever the schedule, whenever the lock is free the shared state is
    the one that the calls completed so far produce when run one at a time,
    whole, in the order in which they released the lock, each ending as its
    caller saw it end; the callers never see the steps of one another. *)
Theorem threadsafe_function_serializes
  {U L R : Type} (fcn : L -> U -> (L + ended R) * U)
  (u0 : U) (argss : list L) (sched : list nat) :
  let s := run fcn sched (initial u0 argss) in
  locked s = false ->
  serial fcn u0 (history s) (user s)
  /\ List.length (history s) = List.length (filter is_done (callers s))
  /\ (forall i a r, nth_error (callers s) i = Some (Done a r) ->
        In (a, r) (history s)).
Proof.
  intros s Hl.
  destruct (callers_inv_run fcn u0 argss sched _ (callers_inv_initial fcn u0 argss))
    as (_ & _ & Hlen & Hdone & u_mid & Hser & Hlock).
  fold s in Hlen, Hdone, Hser, Hlock. rewrite Hl in Hlock.
  destruct Hlock as [-> _]. split; [exact Hser|]. split; assumption.
Qed.

Lemma runs_increment u r u' : runs increment None u r u' -> u' = S u.
Proof.
  intros H. inversion H as [? ? ? ? Hf|? ? l' u1 ? ? Hf Hr]; subst;
    cbn in Hf; [discriminate|].
  inversion Hf; subst.
  inversion Hr as [? ? ? ? Hf'|? ? ? ? ? ? Hf' _]; subst; cbn in Hf';
    [|discriminate].
  inversion Hf'. reflexivity.
Qed.

Lemma serial_increment u0 h u :
  serial increment u0 h u ->
  (forall a r, In (a, r) h -> a = None) ->
  u = (u0 + List.length h)%nat.
Proof.
  induction 1 as [u|u h u1 a r u2 Hs IH Hr]; intros Hnone.
  - cbn. lia.
  - rewrite length_app. cbn.
    assert (a = None) by (apply (Hnone a r), in_app_iff; right; left; reflexivity).
    subst a. apply runs_increment in Hr.
    rewrite IH in Hr; [lia|].
    intros a' r' Hin. apply (Hnone a' r'), in_app_iff. left. exact Hin.
Qed.

(** X9. [n] threads increment a shared counter through the wrapper, each
    reading the counter and writing it back plus one in two steps.
    Whatever the schedule, whenever the lock is free the counter is its
    first value plus the number of calls that are through: no update is
    lost. *)
Theorem threadsafe_counter_loses_no_update
  (u0 n : nat) (sched : list nat) :
  let s := run increment sched (initial u0 (repeat None n)) in
  locked s = false ->
  user s = (u0 + List.length (filter is_done (callers s)))%nat.
Proof.
  intros s Hl.
  destruct (callers_inv_run increment u0 (repeat None n) sched _
              (callers_inv_initial increment u0 (repeat None n)))
    as (_ & Hhist & Hlen & _ & u_mid & Hser & Hlock).
  fold s in Hhist, Hlen, Hser, Hlock. rewrite Hl in Hlock.
  destruct Hlock as [<- _]. rewrite <- Hlen.
  apply serial_increment; [exact Hser|].
  intros a r Hin. apply Hhist in Hin. apply repeat_spec in Hin. exact Hin.
Qed.

(** Two callers whose steps alternate as far as the lock lets them. *)
Definition two_callers : list nat := [0; 1; 0; 1; 0; 1; 0; 1; 1; 1; 1]%nat.

Example two_callers_run :
  run increment two_callers (initial 5%nat [None; None])
  = {| locked := false; user := 7%nat;
       callers := [Done None (Returned tt); Done None (Returned tt)];
       history := [(None, Returned tt); (None, Returned tt)] |}.
Proof. reflexivity. Qed.

Lemma threadsafe_function_excludes_witness :
  let s := run increment [0; 1; 0; 1]%nat (initial 5%nat [None; None]) in
  nth_error (callers s) 0 = Some (InFcn None (Some 5%nat))
  /\ nth_error (callers s) 1 = Some (AtAcquire None)
  /\ locked s = true.
Proof.
  cbv zeta. split; [reflexivity|]. split; [reflexivity|].
  apply (threadsafe_function_excludes increment 5%nat [None; None]
           [0; 1; 0; 1]%nat 0 0
           (InFcn None (Some 5%nat)) (InFcn None (Some 5%nat)));
    reflexivity.
Defined.

Lemma threadsafe_function_serializes_witness :
  locked (run increment two_callers (initial 5%nat [None; None])) = false
  /\ serial increment 5%nat
       (history (run increment two_callers (initial 5%nat [None; None])))
       (user (run increment two_callers (initial 5%nat [None; None]))).
Proof.
  split; [reflexivity|].
  exact (proj1 (threadsafe_function_serializes increment 5%nat [None; None]
                  two_callers eq_refl)).
Defined.

Lemma threadsafe_counter_loses_no_update_witness :
  locked (run increment two_callers (initial 5%nat (repeat None 2))) = false
  /\ user (run increment two_callers (initial 5%nat (repeat None 2)))
     = (5 + List.length
              (filter is_done
                 (callers (run increment two_callers
                             (initial 5%nat (repeat None 2))))))%nat.
Proof.
  split; [reflexivity|].
  exact (threadsafe_counter_loses_no_update 5 2 two_callers eq_refl).
Defined.

End GuardedFacts.

(** ** The [WorkerThread] class: [stop] comes back *)

Module WorkerLiveness.
Import Py Worker WorkerFacts.

Section Returning.
Context {U Args : Type}.
Variable w : WorkerThread U Args.

(** Every call of init, main and exit returns or raises. *)
Definition returns : Prop :=
  (forall f u, init_fct w = Some f -> fst (f (_args w) u) <> NoReturn)
  /\ (forall u, fst (main_fct w (_args w) u) <> NoReturn)
  /\ (forall f u, exit_fct w = Some f -> fst (f (_args w) u) <> NoReturn).

(** The steps that [_run] has left at most, once the flag is clear. *)
Definition steps_left (t : thread_state) : nat :=
  match t with
  | Initial => 4
  | Alive AtInit => 3
  | Alive AtLoop | Alive (AtExcept _) => 2
  | Alive (AtFinally _) => 1
  | Alive Hung | Finished _ => 0
  end.

Definition is_thread_turn (t : turn) : bool :=
  match t with Thread => true | Owner => false end.

Definition thread_turns (sched : list turn) : nat :=
  List.length (filter is_thread_turn sched).

Definition not_hung (s : system U) : Prop := thread s <> Alive Hung.

Lemma not_hung_step t s : returns -> not_hung s -> not_hung (step w t s).
Proof.
  intros (Hi & Hm & Hx) Hs. unfold not_hung in *. destruct t; cbn.
  - unfold thread_step.
    destruct (thread s) as [|[| |e|p|]|r] eqn:Ht; cbn; rewrite ?Ht;
      try congruence.
    + destruct (init_fct w) as [f|] eqn:Hf; [|cbn; congruence].
      specialize (Hi f (user s) eq_refl).
      destruct (f (_args w) (user s)) as [[[]|e|] u']; cbn in *; try congruence.
      destruct (is_Exception e); congruence.
    + destruct (go s); [|cbn; congruence].
      specialize (Hm (user s)).
      destruct (main_fct w (_args w) (user s)) as [[[]|e|] u']; cbn in *;
        try congruence.
      destruct (is_Exception e); congruence.
    + destruct (exit_fct w) as [f|] eqn:Hf; [|cbn; congruence].
      specialize (Hx f (user s) eq_refl).
      destruct (f (_args w) (user s)) as [[[]|e|] u']; cbn in *; congruence.
  - unfold owner_step. destruct (owner s); cbn;
      repeat match goal with
             | |- context [match ?x with _ => _ end] => destruct x eqn:?; cbn
             end; congruence.
Qed.

Lemma not_hung_run sched : forall s,
  returns -> not_hung s -> not_hung (run w sched s).
Proof.
  induction sched as [|t sched IH]; intros s Hr H; cbn.
  - exact H.
  - apply IH; [exact Hr|]. apply not_hung_step; assumption.
Qed.

(** [stop] is waiting in [join] for a thread that is on its way out, or the
    thread has terminated. *)
Definition leaving (s : system U) : Prop :=
  (exists r, thread s = Finished r)
  \/ (owner s = Joining /\ go s = false /\ thread s <> Initial /\ not_hung s).

Lemma leaving_step t s :
  returns -> leaving s ->
  leaving (step w t s)
  /\ (steps_left (thread (step w t s))
      <= steps_left (thread s) - (if is_thread_turn t then 1 else 0))%nat.
Proof.
  intros Hr [[r Hf]|(Ho & Hgo & Hni & Hnh)].
  - destruct (step_finished w t s r Hf) as [Hf' _]. split.
    + left. exists r. exact Hf'.
    + rewrite Hf', Hf. cbn. lia.
  - assert (Hnh' : not_hung (step w t s)) by (apply not_hung_step; assumption).
    destruct t; cbn [step is_thread_turn] in *.
    + destruct (thread_step_owner w s) as (Ho' & Hgo' & Hni').
      split.
      * destruct (thread (thread_step w s)) as [| |r] eqn:Ht'.
        -- exfalso. apply (Hni' Hni). reflexivity.
        -- right. rewrite Ho', Hgo'. split; [exact Ho|]. split; [exact Hgo|].
           split; [rewrite Ht'; discriminate|exact Hnh'].
        -- left. exists r. exact Ht'.
      * clear Ho' Hgo' Hni'. unfold not_hung in *. revert Hnh'.
        unfold thread_step. rewrite Hgo.
        destruct (thread s) as [|[| |e|p|]|r] eqn:Ht; cbn; rewrite ?Ht; cbn;
          try lia; try congruence.
        -- destruct (init_fct w) as [f|]; [|cbn; lia].
           destruct (f (_args w) (user s)) as [[[]|e|] u']; cbn; try lia.
           destruct (is_Exception e); cbn; lia.
        -- destruct (exit_fct w) as [f|]; [|cbn; lia].
           destruct (f (_args w) (user s)) as [[[]|e|] u']; cbn; lia.
    + unfold owner_step. rewrite Ho.
      destruct (thread s) as [| |r] eqn:Ht; [congruence| |].
      * cbn. split; [|rewrite Ht; cbn; destruct p; lia].
        right. repeat split; try assumption. rewrite Ht. discriminate.
      * cbn. split; [|rewrite Ht; cbn; lia]. left. exists r. exact Ht.
Qed.

Lemma leaving_run more : forall s,
  returns -> leaving s ->
  leaving (run w more s)
  /\ (steps_left (thread (run w more s))
      <= steps_left (thread s) - thread_turns more)%nat.
Proof.
  induction more as [|t more IH]; intros s Hr Hl; cbn [run].
  - split; [exact Hl|]. unfold thread_turns. cbn. lia.
  - destruct (leaving_step t s Hr Hl) as [Hl' Hs'].
    destruct (IH _ Hr Hl') as [Hl'' Hs'']. split; [exact Hl''|].
    unfold thread_turns in *. cbn [filter].
    destruct (is_thread_turn t); cbn [List.length]; lia.
Qed.

Lemma trace_grows t s ev : In ev (trace s) -> In ev (trace (step w t s)).
Proof.
  intros H. destruct t; cbn.
  - unfold thread_step.
    destruct (thread s) as [|[| |e|p|]|r]; cbn; try exact H.
    + destruct (init_fct w) as [f|]; [|exact H].
      destruct (f (_args w) (user s)) as [r u']. cbn.
      apply in_app_iff. left. exact H.
    + destruct (go s); [|exact H].
      destruct (main_fct w (_args w) (user s)) as [r u']. cbn.
      apply in_app_iff. left. exact H.
    + destruct (exit_fct w) as [f|]; [|exact H].
      destruct (f (_args w) (user s)) as [r u']. cbn.
      apply in_app_iff. left. exact H.
  - unfold owner_step. destruct (owner s); cbn; try exact H.
    + destruct (todo s) as [|[|] rest]; cbn; try exact H.
      destruct (isAlive (thread s)); cbn; [exact H|].
      apply in_app_iff. left. exact H.
    + destruct (thread s); cbn; exact H.
    + destruct (thread s); cbn; try exact H.
      apply in_app_iff. left. exact H.
Qed.

(** [stop] is still in [join], or it has returned from it. *)
Definition joining_or_joined (s : system U) : Prop :=
  (owner s = Joining /\ thread s <> Initial) \/ In (EvStop true) (trace s).

Lemma joining_or_joined_step t s :
  joining_or_joined s -> joining_or_joined (step w t s).
Proof.
  intros [[Ho Hni]|Hin]; [|right; apply trace_grows; exact Hin].
  destruct t; cbn.
  - destruct (thread_step_owner w s) as (Ho' & _ & Hni').
    left. rewrite Ho'. split; [exact Ho|apply Hni', Hni].
  - unfold owner_step. rewrite Ho.
    destruct (thread s) as [| |r] eqn:Ht; [congruence| |].
    + left. rewrite Ht. split; [exact Ho|discriminate].
    + right. cbn. apply in_app_iff. right. left. reflexivity.
Qed.

Lemma joining_or_joined_run more : forall s,
  joining_or_joined s -> joining_or_joined (run w more s).
Proof.
  induction more as [|t more IH]; intros s H; cbn.
  - exact H.
  - apply IH, joining_or_joined_step, H.
Qed.

End Returning.

(** X10. When the calls of init, main and exit all return or raise, a
    [stop()] that waits in [join] is not kept waiting: whatever the
    schedule, once the thread has taken three more steps it has terminated,
    and the next step of the owner finds [stop()] returned. *)
Theorem stop_comes_back
  {U Args : Type} (w : WorkerThread U Args) (u : U) (reqs : list request)
  (sched more : list turn) :
  let s := run w sched (initial u reqs) in
  returns w -> owner s = Joining -> (3 <= thread_turns more)%nat ->
  (exists r, thread (run w more s) = Finished r)
  /\ In (EvStop true) (trace (run w (more ++ [Owner]) s)).
Proof.
  intros s Hr Ho Hturns.
  assert (Hjoin : join_inv s) by (apply join_inv_run, join_inv_initial).
  assert (Hnh : not_hung s).
  { apply not_hung_run; [exact Hr|]. unfold not_hung. cbn. discriminate. }
  destruct Hjoin as [Hni Hgo].
  assert (Hl : leaving s).
  { right. repeat split; [exact Ho|apply Hgo, Ho|apply Hni; right; exact Ho|exact Hnh]. }
  destruct (leaving_run w more s Hr Hl) as [Hl' Hs'].
  assert (Hfin : exists r, thread (run w more s) = Finished r).
  { destruct Hl' as [Hf|(_ & _ & Hni' & Hnh')]; [exact Hf|].
    unfold not_hung in Hnh'.
    assert (steps_left (thread s) <= 3)%nat.
    { destruct (thread s) as [|[| |e|p|]|r]; cbn; try lia.
      exfalso. apply Hni; [right; exact Ho|reflexivity]. }
    destruct (thread (run w more s)) as [|[| |e|p|]|r]; cbn in Hs';
      try (exfalso; lia); try (exfalso; congruence).
    exists r. reflexivity. }
  split; [exact Hfin|].
  rewrite run_app. cbn [run step].
  assert (Hj : joining_or_joined (run w more s)).
  { apply joining_or_joined_run. left. split; [exact Ho|].
    apply Hni. right. exact Ho. }
  destruct Hj as [[Ho' _]|Hin]; [|apply (trace_grows w Owner), Hin].
  destruct Hfin as [r Hf]. unfold owner_step. rewrite Ho', Hf. cbn.
  apply in_app_iff. right. left. reflexivity.
Qed.

(** A worker stopped while its main is failing: the owner starts it, asks it
    to stop, and the thread then takes its steps. *)
Definition waiting_schedule : list turn := [Owner; Owner; Owner; Owner].

Lemma stop_comes_back_witness :
  let s := run flaky_worker waiting_schedule (initial 7%nat [Start; Stop]) in
  owner s = Joining
  /\ (exists r, thread (run flaky_worker [Thread; Thread; Thread] s) = Finished r)
  /\ In (EvStop true)
        (trace (run flaky_worker ([Thread; Thread; Thread] ++ [Owner]) s)).
Proof.
  cbv zeta. split; [reflexivity|].
  apply (stop_comes_back flaky_worker 7%nat [Start; Stop] waiting_schedule
           [Thread; Thread; Thread]).
  - split; [|split].
    + intros f u0 Hf. inversion Hf; subst. discriminate.
    + intros u0. cbn. unfold flaky_main. destruct (u0 <? 2)%nat; discriminate.
    + intros f u0 Hf. inversion Hf; subst. discriminate.
  - reflexivity.
  - cbn. lia.
Defined.

End WorkerLiveness.

(** ** The [SerialSocketEmulator] class: opening, closing, draining *)

Module SerialMore.
Import Py Serial SerialFacts.

Section Layer.
Context {OS sock : Type} {layer : SocketLayer OS sock}.

(** A call that did not return. *)
Definition call_blocked (c : call sock) : bool :=
  match c with
  | Socket NoReturn | Settimeout _ _ NoReturn | Connect _ _ NoReturn
  | Close _ NoReturn | Recv _ _ NoReturn | Send _ _ NoReturn
  | Select _ NoReturn => true
  | _ => false
  end.

(** The last call recorded did not return. *)
Definition ends_blocked (cs : list (call sock)) : Prop :=
  exists cs' c, cs = cs' ++ [c] /\ call_blocked c = true.

Definition is_select (c : call sock) : bool :=
  match c with Select _ _ => true | _ => false end.

Definition selects (cs : list (call sock)) : nat :=
  List.length (filter is_select cs).

Lemma selects_app cs cs' : selects (cs ++ cs') = (selects cs + selects cs')%nat.
Proof. unfold selects. rewrite filter_app, length_app. reflexivity. Qed.

(** What one library call leaves behind. *)
Lemma os_call_effect {A} (f : OS -> outcome A * OS) (ev : outcome A -> call sock)
  (st : state OS sock) :
  same_object st (snd (os_call f ev st))
  /\ calls (snd (os_call f ev st)) = calls st ++ [ev (fst (os_call f ev st))].
Proof.
  unfold os_call. destruct (f (os st)) as [r o]. cbn.
  split; [split; reflexivity|reflexivity].
Qed.

Lemma select_effect objs st :
  same_object st (snd (select objs st))
  /\ (selects (calls (snd (select objs st))) <= S (selects (calls st)))%nat
  /\ drains (calls (snd (select objs st))) = drains (calls st)
  /\ (fst (select objs st) = NoReturn -> ends_blocked (calls (snd (select objs st)))).
Proof.
  unfold select. destruct (socks_of objs) as [l|].
  - unfold os_call. destruct (select_select l l l (os st)) as [r o].
    cbn [fst snd calls self log].
    split; [split; reflexivity|]. rewrite selects_app, drains_app. cbn.
    split; [lia|]. split; [lia|].
    intros ->. exists (calls st), (Select l NoReturn). split; reflexivity.
  - cbn. split; [split; reflexivity|]. split; [lia|]. split; [reflexivity|].
    discriminate.
Qed.

Lemma for_each_cons {A B} (x : A) (l : list A) (body : A -> M (state OS sock) B) st :
  for_each (x :: l) body st
  = match body x st with
    | (Ret _, st1) => for_each l body st1
    | (Raise e, st1) => (Raise e, st1)
    | (NoReturn, st1) => (NoReturn, st1)
    end.
Proof.
  cbn [for_each]. unfold bind. destruct (body x st) as [[b|e|] st1]; reflexivity.
Qed.

Lemma drain_effect l : forall st,
  same_object st (snd (for_each l (fun s => recv s 1024) st))
  /\ selects (calls (snd (for_each l (fun s => recv s 1024) st)))
     = selects (calls st)
  /\ (drains (calls (snd (for_each l (fun s => recv s 1024) st)))
      <= drains (calls st) + List.length l)%nat
  /\ (fst (for_each l (fun s => recv s 1024) st) = NoReturn ->
      ends_blocked (calls (snd (for_each l (fun s => recv s 1024) st)))).
Proof.
  induction l as [|s l IH]; intros st.
  - cbn. split; [split; reflexivity|]. split; [reflexivity|]. split; [lia|].
    discriminate.
  - rewrite for_each_cons.
    pose proof (os_call_effect (sock_recv s 1024) (Recv s 1024) st)
      as ((Hs0 & Hl0) & Hc0).
    change (os_call (sock_recv s 1024) (Recv s 1024)) with (recv s 1024) in *.
    assert (Hsel0 : selects (calls (snd (recv s 1024 st))) = selects (calls st)).
    { rewrite Hc0, selects_app. cbn. lia. }
    assert (Hdr0 : drains (calls (snd (recv s 1024 st))) = S (drains (calls st))).
    { rewrite Hc0, drains_app. cbn. lia. }
    destruct (recv s 1024 st) as [[d|e|] st1]; cbn [fst snd] in *.
    + destruct (IH st1) as ((Hs & Hl) & Hsel & Hdr & Hb).
      split; [split; congruence|]. split; [lia|].
      split; [cbn [List.length]; lia|exact Hb].
    + cbn [List.length]. split; [split; assumption|]. split; [lia|].
      split; [lia|discriminate].
    + cbn [List.length]. split; [split; assumption|]. split; [lia|].
      split; [lia|].
      intros _. exists (calls st), (Recv s 1024 NoReturn).
      split; [exact Hc0|reflexivity].
Qed.

(** One turn of the drain loop. *)
Lemma flush_loop_unfold fuel objs lim cnt st :
  flush_loop (S fuel) objs lim cnt st
  = match select objs st with
    | (Ret (i_socks, _, _), st1) =>
        if Z.of_nat (List.length i_socks) =? 0 then (Ret tt, st1)
        else
          match for_each i_socks (fun s => recv s 1024) st1 with
          | (Ret _, st2) =>
              if lim >? 0 then
                if cnt + 1 >=? lim then (Raise limit_reached, st2)
                else flush_loop fuel objs lim (cnt + 1) st2
              else flush_loop fuel objs lim cnt st2
          | (Raise e, st2) => (Raise e, st2)
          | (NoReturn, st2) => (NoReturn, st2)
          end
    | (Raise e, st1) => (Raise e, st1)
    | (NoReturn, st1) => (NoReturn, st1)
    end.
Proof.
  cbn [flush_loop]. unfold bind at 1.
  destruct (select objs st) as [[[[i_socks o_socks] e_socks]|e|] st1];
    try reflexivity.
  destruct (Z.of_nat (List.length i_socks) =? 0); [reflexivity|].
  unfold bind at 1.
  destruct (for_each i_socks (fun s => recv s 1024) st1) as [[[]|e|] st2];
    try reflexivity.
  destruct (lim >? 0); [|reflexivity].
  destruct (cnt + 1 >=? lim); reflexivity.
Qed.

(** A turn that ends the loop at once. *)
Definition settled (st st' : state OS sock) (r : outcome unit) (n : nat) : Prop :=
  same_object st st'
  /\ (selects (calls st') <= selects (calls st) + n)%nat
  /\ (r = NoReturn -> ends_blocked (calls st')).

Lemma flush_loop_within lim objs :
  forall k fuel cnt st,
    0 <= cnt -> Z.of_nat (S k) = lim - cnt -> (S k <= fuel)%nat ->
    flush_loop fuel objs lim cnt st = flush_loop (S k) objs lim cnt st
    /\ settled st (snd (flush_loop (S k) objs lim cnt st))
         (fst (flush_loop (S k) objs lim cnt st)) (S k).
Proof.
  induction k as [|k IH]; intros fuel cnt st Hcnt Hk Hfuel;
    (destruct fuel as [|fuel]; [lia|]);
    rewrite !flush_loop_unfold;
    destruct (select_effect objs st) as ((Hs1 & Hl1) & Hn1 & _ & Hb1);
    destruct (select objs st) as [[[[i_socks o_socks] e_socks]|e|] st1];
    cbn [fst snd] in *.
  - destruct (Z.of_nat (List.length i_socks) =? 0).
    { split; [reflexivity|]. cbn [fst snd].
      split; [split; assumption|]. split; [lia|discriminate]. }
    destruct (drain_effect i_socks st1) as ((Hs2 & Hl2) & Hn2 & _ & Hb2).
    destruct (for_each i_socks (fun s => recv s 1024) st1) as [[[]|e|] st2];
      cbn [fst snd] in *.
    + replace (lim >? 0) with true by (symmetry; apply Z.gtb_lt; lia).
      replace (cnt + 1 >=? lim) with true by (symmetry; apply Z.geb_le; lia).
      cbn [fst snd]. split; [reflexivity|]. split; [split; congruence|].
      split; [lia|discriminate].
    + split; [reflexivity|]. split; [split; congruence|].
      split; [lia|discriminate].
    + split; [reflexivity|]. split; [split; congruence|].
      split; [lia|exact Hb2].
  - split; [reflexivity|]. split; [split; assumption|].
    split; [lia|discriminate].
  - split; [reflexivity|]. split; [split; assumption|].
    split; [lia|intros _; apply Hb1; reflexivity].
  - destruct (Z.of_nat (List.length i_socks) =? 0).
    { split; [reflexivity|]. cbn [fst snd].
      split; [split; assumption|]. split; [lia|discriminate]. }
    destruct (drain_effect i_socks st1) as ((Hs2 & Hl2) & Hn2 & _ & Hb2).
    destruct (for_each i_socks (fun s => recv s 1024) st1) as [[[]|e|] st2];
      cbn [fst snd] in *.
    + replace (lim >? 0) with true by (symmetry; apply Z.gtb_lt; lia).
      replace (cnt + 1 >=? lim) with false
        by (symmetry; rewrite Z.geb_leb; apply Z.leb_gt; lia).
      destruct (IH fuel (cnt + 1) st2) as (He & (Hs3 & Hl3) & Hn3 & Hb3);
        [lia|lia|lia|].
      split; [exact He|]. split; [split; congruence|]. split; [lia|exact Hb3].
    + split; [reflexivity|]. split; [split; congruence|].
      split; [lia|discriminate].
    + split; [reflexivity|]. split; [split; congruence|].
      split; [lia|exact Hb2].
  - split; [reflexivity|]. split; [split; assumption|].
    split; [lia|discriminate].
  - split; [reflexivity|]. split; [split; assumption|].
    split; [lia|intros _; apply Hb1; reflexivity].
Qed.

End Layer.

(** X11. Whatever the socket layer does, [flush_socket(socks, lim)] with a
    positive limit is through after at most [lim] turns of its loop: more
    fuel changes nothing, at most [lim] calls of [select] are made, and it
    fails to return only when a call of [select] or [recv] itself does not
    return.  It touches neither the adapter nor the log. *)
Theorem flush_socket_within_limit
  {OS sock : Type} {layer : SocketLayer OS sock}
  (socks : option sock) (lim : Z) (st : state OS sock) (fuel : nat) :
  0 < lim -> (Z.to_nat lim <= fuel)%nat ->
  let res := flush_socket fuel socks lim st in
  res = flush_socket (Z.to_nat lim) socks lim st
  /\ same_object st (snd res)
  /\ (selects (calls (snd res)) <= selects (calls st) + Z.to_nat lim)%nat
  /\ (fst res = NoReturn -> ends_blocked (calls (snd res))).
Proof.
  intros Hlim Hfuel. cbv zeta. unfold flush_socket. cbv zeta.
  destruct (Z.to_nat lim) as [|k] eqn:Hk; [lia|].
  destruct (flush_loop_within lim [socks] k fuel 0 st) as (He & Hso & Hn & Hb);
    [lia|lia|exact Hfuel|].
  rewrite He. split; [reflexivity|]. split; [exact Hso|]. split; assumption.
Qed.

Lemma flush_socket_within_limit_witness :
  flush_socket (layer := chatty) 9 (Some 0%nat) 2 connected
  = flush_socket (layer := chatty) (Z.to_nat 2) (Some 0%nat) 2 connected
  /\ (selects (calls (snd (flush_socket (layer := chatty) 9 (Some 0%nat) 2 connected)))
      <= selects (calls connected) + Z.to_nat 2)%nat.
Proof.
  destruct (flush_socket_within_limit (layer := chatty) (Some 0%nat) 2
              connected 9) as (He & _ & Hn & _); [lia|cbn; lia|].
  split; [exact He|exact Hn].
Defined.

(** Case analysis on the results of the library calls met in a goal. *)
Ltac split_calls :=
  repeat match goal with
         | |- context [match ?x with (_, _) => _ end] =>
             lazymatch type of x with
             | (outcome _ * state _ _)%type => fail
             | (outcome _ * _)%type => idtac
             end;
             let o := fresh "o" in
             destruct x as [[?|?|] o] eqn:?;
             cbn [fst snd self os log calls _sock _host _port timeout
                    find_clause]
         | |- context [if is_socket_error ?e then _ else _] =>
             destruct (is_socket_error e) eqn:?;
             cbn [fst snd self os log calls _sock _host _port timeout]
         end.

(** X12. When [open()] returns normally the adapter holds the socket just
    created, never [None], whether the connection was made or refused, and
    host, port and timeout are as before.  A connection refused with a
    socket error is such a normal return, with one warning logged.  The
    socket held before, if any, is the first thing closed. *)
Theorem open_installs_socket
  {OS sock : Type} {layer : SocketLayer OS sock} (st : state OS sock) :
  (forall st', open st = (Ret tt, st') ->
     exists s, _sock (self st') = Some s
               /\ In (Socket (Ret s)) (calls st')
               /\ _host (self st') = _host (self st)
               /\ _port (self st') = _port (self st)
               /\ timeout (self st') = timeout (self st))
  /\ (forall s address e cs,
        calls (snd (open st)) = cs ++ [Connect s address (Raise e)] ->
        is_socket_error e = true ->
        fst (open st) = Ret tt
        /\ _sock (self (snd (open st))) = Some s
        /\ log (snd (open st))
           = log st ++ [(WARNING,
                         "Couldn't open socket " ++ _host (self st) ++ ":"
                           ++ str_int (_port (self st)) ++ ": " ++ str e)%string])
  /\ (forall s0, _sock (self st) = Some s0 ->
        exists r rest, calls (snd (open st)) = calls st ++ Close s0 r :: rest).
Proof.
  split; [|split].
  - intros st'. unfold open, bind, get, os_call, set_sock, try_except, logger, ret.
    cbn [fst snd self os log calls _sock _host _port timeout].
    destruct (_sock (self st)) as [s0|];
    split_calls; intros H; inversion H; subst; clear H;
      cbn [fst snd self os log calls _sock _host _port timeout];
      eexists; (split; [reflexivity|]);
      (split; [rewrite !in_app_iff; cbn; tauto|]); repeat split.
  - intros s address e cs.
    unfold open, bind, get, os_call, set_sock, try_except, logger, ret.
    cbn [fst snd self os log calls _sock _host _port timeout].
    destruct (_sock (self st)) as [s0|];
    split_calls; intros H He;
      repeat rewrite app_assoc in H;
      apply app_inj_tail in H; destruct H as [_ H];
      try discriminate; inversion H; subst; clear H;
      try congruence; repeat split.
  - intros s0 Hs0.
    unfold open, bind, get, os_call, set_sock, try_except, logger, ret.
    cbn [fst snd self os log calls _sock _host _port timeout].
    rewrite Hs0.
    split_calls; cbn [fst snd self os log calls];
      repeat rewrite <- app_assoc; cbn [app];
      eexists; eexists; reflexivity.
Qed.

Lemma open_installs_socket_witness :
  (exists s, _sock (self (snd (open (layer := unreachable) fresh))) = Some s)
  /\ fst (open (layer := unreachable) fresh) = Ret tt.
Proof.
  split.
  - destruct (proj1 (open_installs_socket (layer := unreachable) fresh)
                (snd (open (layer := unreachable) fresh)) eq_refl)
      as [s [Hs _]].
    exists s. exact Hs.
  - apply (proj1 (proj2 (open_installs_socket (layer := unreachable) fresh))
             0%nat ("10.0.0.7"%string, 502)
             (SocketError "[Errno 111] Connection refused")
             [Socket (Ret 0%nat); Settimeout 0%nat 1 (Ret tt)]);
      reflexivity.
Defined.

Lemma write_without_socket {OS sock : Type} {layer : SocketLayer OS sock}
  (fuel : nat) (string : list byte) (st : state OS sock) :
  _sock (self st) = None -> (0 < fuel)%nat ->
  fst (write fuel string st) = Ret tt
  /\ calls (snd (write fuel string st)) = calls st
  /\ self (snd (write fuel string st)) = self st.
Proof.
  intros Hs Hf. destruct fuel as [|fuel]; [lia|].
  rewrite write_outcome.
  assert (Hloop : write_loop (S fuel) string 0 st
                  = if 0 <? Z.of_nat (List.length string)
                    then (Raise (Exc "AttributeError"
                                   "'NoneType' object has no attribute 'send'"), st)
                    else (Ret tt, st)).
  { cbn [write_loop]. destruct (0 <? Z.of_nat (List.length string));
      [|reflexivity].
    unfold bind, get. rewrite Hs. reflexivity. }
  rewrite Hloop. destruct (0 <? Z.of_nat (List.length string)); cbn;
    repeat split.
Qed.

(** X13. Once [close()] has returned the adapter holds no socket: a second
    [close()] does nothing at all, [read] returns the empty string and
    [write] returns, both without any call into the socket layer.  When
    closing the socket raises, [close()] raises as well and the adapter
    keeps the socket. *)
Theorem close_leaves_no_socket
  {OS sock : Type} {layer : SocketLayer OS sock} (st : state OS sock) :
  (forall st', close st = (Ret tt, st') ->
     _sock (self st') = None
     /\ close st' = (Ret tt, st')
     /\ (forall bufsize,
           fst (read bufsize st') = Ret []
           /\ calls (snd (read bufsize st')) = calls st')
     /\ (forall fuel string, (0 < fuel)%nat ->
           fst (write fuel string st') = Ret tt
           /\ calls (snd (write fuel string st')) = calls st'))
  /\ (forall s e o, _sock (self st) = Some s ->
        sock_close s (os st) = (Raise e, o) ->
        fst (close st) = Raise e /\ _sock (self (snd (close st))) = Some s).
Proof.
  split.
  - intros st' H.
    assert (Hnone : _sock (self st') = None).
    { revert H. unfold close, bind, get, os_call, set_sock, ret.
      destruct (_sock (self st)) as [s|] eqn:Hs.
      - destruct (sock_close s (os st)) as [[[]|e|] o]; intros H;
          inversion H; subst. reflexivity.
      - intros H. inversion H; subst. exact Hs. }
    split; [exact Hnone|]. split; [|split].
    + unfold close, bind, get. rewrite Hnone. reflexivity.
    + intros bufsize. rewrite (read_without_socket bufsize st' Hnone).
      split; reflexivity.
    + intros fuel string Hf.
      destruct (write_without_socket fuel string st' Hnone Hf) as (Hr & Hc & _).
      split; assumption.
  - intros s e o Hs Hc. unfold close, bind, get, os_call. rewrite Hs, Hc.
    cbn. split; [reflexivity|exact Hs].
Qed.

Lemma close_leaves_no_socket_witness :
  _sock (self (snd (close (layer := chatty) connected))) = None
  /\ fst (read (layer := chatty) 8 (snd (close (layer := chatty) connected)))
     = Ret [].
Proof.
  destruct (proj1 (close_leaves_no_socket (layer := chatty) connected)
              (snd (close (layer := chatty) connected)) eq_refl)
    as (Hn & _ & Hread & _).
  split; [exact Hn|]. apply (Hread 8).
Defined.

(** X14. On a socket with nothing to read, [flushInput()] asks [select]
    once and is done: nothing is received, nothing is logged, the adapter
    keeps its socket and no reconnection is attempted. *)
Theorem flushInput_nothing_pending
  {OS sock : Type} {layer : SocketLayer OS sock}
  (st : state OS sock) (fuel : nat) (s : sock) (ws es : list sock) (o' : OS) :
  _sock (self st) = Some s ->
  select_select [s] [s] [s] (os st) = (Ret ([], ws, es), o') ->
  (0 < fuel)%nat ->
  flushInput fuel st
  = (Ret tt,
     {| self := self st; os := o'; log := log st;
        calls := calls st ++ [Select [s] (Ret ([], ws, es))] |}).
Proof.
  intros Hs Hsel Hf. destruct fuel as [|fuel]; [lia|].
  unfold flushInput, try_except, bind at 1, get. rewrite Hs.
  unfold flush_socket. cbv zeta. rewrite flush_loop_unfold.
  unfold select. cbn [socks_of option_map]. unfold os_call. rewrite Hsel.
  reflexivity.
Qed.

Lemma flushInput_nothing_pending_witness :
  flushInput (layer := unreachable) 3 connected
  = (Ret tt,
     {| self := self connected; os := 1%nat; log := [];
        calls := [Select [0%nat] (Ret ([], [0%nat], []))] |}).
Proof.
  apply (flushInput_nothing_pending (layer := unreachable) connected 3 0%nat
           [0%nat] [] 1%nat); [reflexivity|reflexivity|lia].
Defined.

Definition not_a_socket : exn :=
  Exc "TypeError" "argument must be an int, or have a fileno() method.".

Lemma open_returns_socket {OS sock : Type} {layer : SocketLayer OS sock}
  (st st' : state OS sock) :
  open st = (Ret tt, st') ->
  exists s, _sock (self st') = Some s /\ In (Socket (Ret s)) (calls st').
Proof.
  unfold open, bind, get, os_call, set_sock, try_except, logger, ret.
  cbn [fst snd self os log calls _sock _host _port timeout].
  destruct (_sock (self st)) as [s0|];
    split_calls; intros H; inversion H; subst; clear H;
    cbn [fst snd self os log calls _sock _host _port timeout];
    eexists; (split; [reflexivity|]); rewrite !in_app_iff; cbn; tauto.
Qed.

(** X15. On an adapter that holds no socket, [flushInput()] does not drain
    anything: [select] refuses [None], the error is logged and [open()] is
    called; so whenever such a [flushInput()] returns, the adapter has been
    given a new socket. *)
Theorem flushInput_without_socket
  {OS sock : Type} {layer : SocketLayer OS sock}
  (st : state OS sock) (fuel : nat) :
  _sock (self st) = None -> (0 < fuel)%nat ->
  flushInput fuel st = reconnect not_a_socket st
  /\ (forall st', flushInput fuel st = (Ret tt, st') ->
        exists s, _sock (self st') = Some s
                  /\ In (Socket (Ret s)) (calls st')).
Proof.
  intros Hs Hf.
  assert (He : flushInput fuel st = reconnect not_a_socket st).
  { destruct fuel as [|fuel]; [lia|].
    apply flushInput_handler; [|reflexivity].
    rewrite Hs. unfold flush_socket. cbv zeta. rewrite flush_loop_unfold.
    reflexivity. }
  split; [exact He|].
  intros st' H. rewrite He in H. unfold reconnect, bind, logger in H.
  apply open_returns_socket in H. exact H.
Qed.

Lemma flushInput_without_socket_witness :
  flushInput (layer := chatty) 3 fresh = reconnect (layer := chatty) not_a_socket fresh
  /\ exists s, _sock (self (snd (flushInput (layer := chatty) 3 fresh))) = Some s.
Proof.
  destruct (flushInput_without_socket (layer := chatty) fresh 3 eq_refl)
    as [He Hs]; [lia|].
  split; [exact He|].
  destruct (Hs (snd (flushInput (layer := chatty) 3 fresh)) eq_refl) as [s [H _]].
  exists s. exact H.
Defined.

Section Sends.
Context {OS sock : Type} {layer : SocketLayer OS sock}.

Definition is_send (c : call sock) : bool :=
  match c with Send _ _ _ => true | _ => false end.

(** The number of calls of [send] recorded. *)
Definition sends (cs : list (call sock)) : nat :=
  List.length (filter is_send cs).

Lemma sends_app cs cs' : sends (cs ++ cs') = (sends cs + sends cs')%nat.
Proof. unfold sends. rewrite filter_app, length_app. reflexivity. Qed.

Lemma write_loop_count string s :
  send_progress s ->
  forall fuel k st,
    _sock (self st) = Some s -> 0 <= k ->
    (sends (calls (snd (write_loop fuel string k st)))
     <= sends (calls st) + Z.to_nat (Z.of_nat (List.length string) - k))%nat.
Proof.
  intros Hp. induction fuel as [|fuel IH]; intros k st Hs Hk.
  - cbn. lia.
  - destruct (Z.lt_ge_cases k (Z.of_nat (List.length string))) as [Hlt|Hge].
    + rewrite (write_loop_turn fuel string k st s Hs Hlt).
      assert (Hne : slice_from string k <> []).
      { rewrite slice_from_nonneg by exact Hk. intros Hnil.
        apply (f_equal (@List.length byte)) in Hnil.
        rewrite length_skipn in Hnil. cbn in Hnil. lia. }
      destruct (Hp _ (os st) Hne) as [n [o [Hsend Hn]]]. rewrite Hsend.
      specialize (IH (k + n) (after_send st s (slice_from string k) (Ret n) o)
                     Hs ltac:(lia)).
      cbn [after_send calls] in IH. rewrite sends_app in IH. cbn in IH. lia.
    + rewrite (write_loop_done fuel string k st Hge). cbn. lia.
Qed.

End Sends.

(** X16. With a socket layer whose [send] takes at least one byte of what
    it is offered, [write] calls [send] at most once per byte of the
    payload, whatever the fuel; for the empty payload it does not call it. *)
Theorem write_sends_at_most
  {OS sock : Type} {layer : SocketLayer OS sock}
  (s : sock) (string : list byte) (st : state OS sock) (fuel : nat) :
  send_progress s -> _sock (self st) = Some s ->
  (sends (calls (snd (write fuel string st)))
   <= sends (calls st) + List.length string)%nat.
Proof.
  intros Hp Hs.
  pose proof (write_loop_count string s Hp fuel 0 st Hs ltac:(lia)) as H.
  rewrite write_outcome.
  destruct (write_loop fuel string 0 st) as [[[]|e|] st1]; cbn [snd] in *;
    try lia.
  destruct (is_Exception e); cbn [logger snd calls]; lia.
Qed.

Lemma write_sends_at_most_witness :
  (sends (calls (snd (write (layer := chatty) 9 [x0a; x0b; x0c; x0d; x0e]%byte
                        connected)))
   <= sends (calls connected) + 5)%nat.
Proof.
  apply (write_sends_at_most (layer := chatty) 0%nat
           [x0a; x0b; x0c; x0d; x0e]%byte connected 9).
  - exact chatty_send_progress.
  - reflexivity.
Defined.

Lemma flush_loop_unbounded
  {OS sock : Type} {layer : SocketLayer OS sock} (s : sock) (lim : Z) :
  lim <= 0 -> always_pending s -> recv_succeeds s 1024 ->
  forall fuel cnt st, fst (flush_loop fuel [Some s] lim cnt st) = NoReturn.
Proof.
  intros Hlim Hp Hr. induction fuel as [|fuel IH]; intros cnt st.
  - reflexivity.
  - destruct (flush_loop_turn s lim cnt st Hp) as [st1 [_ [_ Hturn]]].
    rewrite Hturn.
    destruct (recv_effect s 1024 st1) as [_ [_ Hok]].
    destruct (Hok Hr) as [d Hd].
    destruct (recv s 1024 st1) as [[d'|e|] st2]; cbn [fst] in Hd;
      try discriminate.
    replace (lim >? 0) with false
      by (symmetry; rewrite Z.gtb_ltb; apply Z.ltb_ge; exact Hlim).
    apply IH.
Qed.

(** X18. Without a limit ([lim] zero, the default, or negative) the drain
    has no bound of its own: on a socket that always reports pending data
    and whose receives succeed, [flush_socket] does not return, however
    many turns it is given. *)
Theorem flush_socket_without_limit
  {OS sock : Type} {layer : SocketLayer OS sock}
  (s : sock) (lim : Z) (st : state OS sock) (fuel : nat) :
  lim <= 0 -> always_pending s -> recv_succeeds s 1024 ->
  fst (flush_socket fuel (Some s) lim st) = NoReturn.
Proof.
  intros Hlim Hp Hr. unfold flush_socket. cbv zeta.
  apply flush_loop_unbounded; assumption.
Qed.

Lemma flush_socket_without_limit_witness :
  fst (flush_socket (layer := chatty) 50 (Some 0%nat) 0 connected) = NoReturn.
Proof.
  apply (flush_socket_without_limit (layer := chatty) 0%nat 0 connected 50).
  - lia.
  - exact chatty_always_pending.
  - exact chatty_recv_succeeds.
Defined.

End SerialMore.

(** ** [create_logger] *)

Module LoggerFacts.
Import Py Logger.
Local Open Scope string_scope.

Section Factory.
Context {OS sock : Type}.
Variable socket_dgram : OS -> outcome sock * OS.

Definition known (name : string) : bool :=
  String.eqb name "udp" || String.eqb name "console" || String.eqb name "dummy".

(** One call of [create_logger] after another, whatever each one ends
    with, as a caller that catches the exceptions makes them. *)
Fixpoint create_all (reqs : list (string * Z * string)) (st : state OS sock)
  : state OS sock :=
  match reqs with
  | [] => st
  | (name, lvl, fmt) :: rest =>
      create_all rest (snd (create_logger socket_dgram name lvl fmt st))
  end.

(** The calls among [reqs] that return. *)
Fixpoint returned (reqs : list (string * Z * string)) (st : state OS sock) : nat :=
  match reqs with
  | [] => 0
  | (name, lvl, fmt) :: rest =>
      let res := create_logger socket_dgram name lvl fmt st in
      ((match fst res with Ret _ => 1 | _ => 0 end) + returned rest (snd res))%nat
  end.

Lemma create_logger_effect name lvl fmt st :
  let res := create_logger socket_dgram name lvl fmt st in
  level (modbus_tk (snd res)) = lvl
  /\ match fst res with
     | Ret lg =>
         lg = modbus_tk (snd res)
         /\ exists h, handlers (modbus_tk (snd res))
                      = (handlers (modbus_tk st) ++ [(h, fmt)])%list
     | _ => handlers (modbus_tk (snd res)) = handlers (modbus_tk st)
     end
  /\ (known name = false ->
      fst res = Raise (Exc "Exception" ("Unknown handler " ++ name))
      /\ os (snd res) = os st).
Proof.
  cbv zeta. destruct (socket_dgram (os st)) as [[s|e|] o] eqn:Hsd;
    unfold create_logger, known, bind, setLevel, addHandler,
      new_LogitHandler, ret, raise; cbn;
    (destruct (String.eqb name "udp");
     [cbn; rewrite Hsd; cbn; split; [reflexivity|]; split; [|discriminate];
      first [reflexivity | split; [reflexivity|]; eexists; reflexivity]|]);
    (destruct (String.eqb name "console");
     [cbn; split; [reflexivity|]; split; [|discriminate];
      split; [reflexivity|]; eexists; reflexivity|]);
    (destruct (String.eqb name "dummy");
     [cbn; split; [reflexivity|]; split; [|discriminate];
      split; [reflexivity|]; eexists; reflexivity|]);
    cbn; (split; [reflexivity|]); (split; [reflexivity|]);
    intros _; split; reflexivity.
Qed.

End Factory.

(** X17. [create_logger] sets the level before it looks at the handler
    name: a name other than "udp", "console" and "dummy" raises
    ["Unknown handler <name>"] with no handler added, yet with the level
    of the logger already changed.  Every call that returns adds exactly
    one handler, so that after any series of calls the logger holds as many
    more handlers as calls returned. *)
Theorem create_logger_adds_one_handler
  {OS sock : Type} (socket_dgram : OS -> outcome sock * OS)
  (reqs : list (string * Z * string)) (st : state OS sock) :
  List.length (handlers (modbus_tk (create_all socket_dgram reqs st)))
  = (List.length (handlers (modbus_tk st)) + returned socket_dgram reqs st)%nat
  /\ (forall name lvl fmt, known name = false ->
        fst (create_logger socket_dgram name lvl fmt st)
          = Raise (Exc "Exception" ("Unknown handler " ++ name))
        /\ level (modbus_tk (snd (create_logger socket_dgram name lvl fmt st)))
           = lvl
        /\ handlers (modbus_tk (snd (create_logger socket_dgram name lvl fmt st)))
           = handlers (modbus_tk st)).
Proof.
  split.
  - revert st. induction reqs as [|[[name lvl] fmt] reqs IH]; intros st.
    + cbn. lia.
    + cbn [create_all returned]. cbv zeta. rewrite IH.
      destruct (create_logger_effect socket_dgram name lvl fmt st)
        as (_ & Hh & _).
      destruct (fst (create_logger socket_dgram name lvl fmt st)) as [lg|e|].
      * destruct Hh as [_ [h ->]]. rewrite length_app. cbn. lia.
      * rewrite Hh. lia.
      * rewrite Hh. lia.
  - intros name lvl fmt Hk.
    destruct (create_logger_effect socket_dgram name lvl fmt st)
      as (Hl & Hh & Hu).
    destruct (Hu Hk) as [Hr _]. rewrite Hr in Hh.
    split; [exact Hr|]. split; [exact Hl|exact Hh].
Qed.

(** A socket layer that hands out numbered sockets. *)
Definition numbered (o : nat) : outcome nat * nat := (Ret o, S o).

Definition bare : state nat nat :=
  {| modbus_tk := {| level := 0; handlers := [] |}; os := 0%nat |}.

Example create_logger_series :
  modbus_tk (create_all numbered
               [("console", 10, "%(message)s"); ("syslog", 40, "%(message)s");
                ("udp", 20, "%(message)s")] bare)
  = {| level := 20;
       handlers := [(ConsoleHandler, "%(message)s");
                    (LogitHandler ("127.0.0.1", 1975) 0%nat, "%(message)s")] |}.
Proof. reflexivity. Qed.

Lemma create_logger_adds_one_handler_witness :
  fst (create_logger numbered "syslog" 40 "%(message)s" bare)
    = Raise (Exc "Exception" "Unknown handler syslog")
  /\ level (modbus_tk (snd (create_logger numbered "syslog" 40 "%(message)s" bare)))
     = 40.
Proof.
  destruct (proj2 (create_logger_adds_one_handler numbered [] bare)
              "syslog" 40 "%(message)s" eq_refl) as (Hr & Hl & _).
  split; [exact Hr|exact Hl].
Defined.

End LoggerFacts.

